(** * browservice: the HTTP request rendezvous and the download manager

    A shallow embedding of [src/http.cpp] (class [HTTPRequest::Impl] and
    [HTTPRequestHandler::handleRequest]) and of [src/download_manager.cpp]
    (class [DownloadManager] and its [DownloadHandler]).

    Conventions used throughout:
    - a failed [CHECK] / [REQUIRE] aborts the process: operations return an
      [outcome], whose [Aborted] case is that abort ([REQUIRE] and [postTask]
      come from headers of the repository that are not among these sources;
      [REQUIRE] is read as the fail-fast assertion its uses show, [postTask]
      as handing a call over to run later on the UI thread);
    - calls that leave the object (a callback of the browser engine, [unlink],
      a task posted to the event handler) are recorded, in program order, in a
      list of effects returned next to the new state;
    - thread affinity assertions ([REQUIRE_UI_THREAD]) are not represented:
      every operation of the model runs on the one UI thread. *)

From stdpp Require Import gmap strings list sorting pretty.
From Stdlib Require Import ZArith Lia.

Local Open Scope Z_scope.

(** ** Outcome of an operation guarded by run-time assertions *)

Inductive outcome (A : Type) : Type :=
| Done (a : A)
| Aborted.
Arguments Done {A} a.
Arguments Aborted {A}.

#[global] Instance outcome_ret : MRet outcome := λ A, Done.

#[global] Instance outcome_bind : MBind outcome := λ A B k m,
  match m with
  | Done a => k a
  | Aborted => Aborted
  end.

(** ** src/http.cpp *)

Module Http.

(** [Poco::Net::HTTPServerRequest], as far as the handle reads it. *)
Record HTTPServerRequest : Type := {
  getMethod : string;
  getURI : string
}.

(** [Poco::Net::HTTPServerResponse], as far as a responder can change it:
    the status line, the header collection written by [add], the content
    length written by [setContentLength64], whether [send] was called, and
    the bytes written to the stream [send] returns. *)
Record HTTPServerResponse : Type := {
  status_ : Z;
  headers_ : list (string * string);
  contentLength_ : option N;
  sent_ : bool;
  stream_ : string
}.

Definition add (name value : string) (r : HTTPServerResponse) : HTTPServerResponse :=
  {| status_ := status_ r;
     headers_ := headers_ r ++ [(name, value)];
     contentLength_ := contentLength_ r;
     sent_ := sent_ r;
     stream_ := stream_ r |}.

(** The length is given for the lengths a [Poco::Int64] holds, that is
    below [2^63]; the narrowing of a larger [uint64_t] is not represented. *)
Definition setContentLength64 (n : N) (r : HTTPServerResponse) : HTTPServerResponse :=
  {| status_ := status_ r;
     headers_ := headers_ r;
     contentLength_ := Some n;
     sent_ := sent_ r;
     stream_ := stream_ r |}.

(** [body(response.send())]: [send] emits the header block and hands out the
    output stream, [body] writes to that stream. A body is a function on the
    bytes written so far. *)
Definition send_with (body : string → string) (r : HTTPServerResponse) : HTTPServerResponse :=
  {| status_ := status_ r;
     headers_ := headers_ r;
     contentLength_ := contentLength_ r;
     sent_ := true;
     stream_ := body (stream_ r) |}.

(** A response object as Poco hands it to [handleRequest]: status 200 (the
    constructor of [Poco::Net::HTTPResponse] sets [HTTP_OK]), nothing else
    written yet. *)
Definition fresh_response : HTTPServerResponse :=
  {| status_ := 200;
     headers_ := [];
     contentLength_ := None;
     sent_ := false;
     stream_ := "" |}.

(** The value carried by the promise: [function<void(HTTPServerResponse&)>]. *)
Definition Responder : Type := HTTPServerResponse → HTTPServerResponse.

(** The lambda built in [Impl::sendResponse] (http.cpp lines 49-64). It
    captures [status], [contentType], [contentLength], [body] and [noCache];
    its body uses every capture except [status]. *)
Definition responder (status : Z) (contentType : string) (contentLength : N)
    (body : string → string) (noCache : bool) : Responder :=
  fun response =>
    let response := add "Content-Type" contentType response in
    let response := setContentLength64 contentLength response in
    let response :=
      if noCache then
        add "Expires" "0"
          (add "Pragma" "no-cache"
             (add "Cache-Control" "no-cache, no-store, must-revalidate" response))
      else response in
    send_with body response.

(** [HTTPRequest::Impl]. The promise is [None] until [set_value] gives it
    its value. *)
Record Impl : Type := {
  request_ : HTTPServerRequest;
  responderPromise_ : option Responder;
  responseSent_ : bool
}.

Definition Impl_new (request : HTTPServerRequest) : Impl :=
  {| request_ := request; responderPromise_ := None; responseSent_ := false |}.

(** [promise::set_value]: a second value raises [future_error], which
    nothing catches. *)
Definition set_value (p : option Responder) (v : Responder) : outcome (option Responder) :=
  match p with
  | None => Done (Some v)
  | Some _ => Aborted
  end.

(** [CHECK(!responseSent_)] opens each of the four operations. *)
Definition method (i : Impl) : outcome string :=
  if responseSent_ i then Aborted else Done (getMethod (request_ i)).

Definition path (i : Impl) : outcome string :=
  if responseSent_ i then Aborted else Done (getURI (request_ i)).

Definition sendResponse (status : Z) (contentType : string) (contentLength : N)
    (body : string → string) (noCache : bool) (i : Impl) : outcome Impl :=
  if responseSent_ i then Aborted
  else
    p ← set_value (responderPromise_ i)
          (responder status contentType contentLength body noCache);
    Done {| request_ := request_ i; responderPromise_ := p; responseSent_ := true |}.

Definition sendTextResponse (status : Z) (text : string) (noCache : bool)
    (i : Impl) : outcome Impl :=
  let contentLength := N.of_nat (String.length text) in
  sendResponse status "text/plain; charset=UTF-8" contentLength
    (fun out => out +:+ text) noCache i.

(** The literal ["ERROR: Request handling failure\n"] of the destructor. *)
Definition fallback_text : string :=
  "ERROR: Request handling failure" +:+ String (Ascii.ascii_of_nat 10) "".

(** [Impl::~Impl]. *)
Definition Impl_destroy (i : Impl) : outcome Impl :=
  if responseSent_ i then Done i
  else sendTextResponse 500 fallback_text true i.

(** What the consumer of [onHTTPServerRequest] does with the handle on the UI
    thread before the last reference to it goes away. *)
Inductive UiCall : Type :=
| CallMethod
| CallPath
| CallSendResponse (status : Z) (contentType : string) (contentLength : N)
    (body : string → string) (noCache : bool)
| CallSendTextResponse (status : Z) (text : string) (noCache : bool).

Definition ui_call (c : UiCall) (i : Impl) : outcome Impl :=
  match c with
  | CallMethod => _ ← method i; Done i
  | CallPath => _ ← path i; Done i
  | CallSendResponse status contentType contentLength body noCache =>
      sendResponse status contentType contentLength body noCache i
  | CallSendTextResponse status text noCache =>
      sendTextResponse status text noCache i
  end.

Fixpoint ui_calls (cs : list UiCall) (i : Impl) : outcome Impl :=
  match cs with
  | [] => Done i
  | c :: cs => i' ← ui_call c i; ui_calls cs i'
  end.

Definition is_send (c : UiCall) : bool :=
  match c with
  | CallMethod | CallPath => false
  | CallSendResponse _ _ _ _ _ | CallSendTextResponse _ _ _ => true
  end.

(** [future::get] once the promise object is gone: the stored value, or the
    [broken_promise] exception when there is none. *)
Definition future_get (p : option Responder) : outcome Responder :=
  match p with
  | Some f => Done f
  | None => Aborted
  end.

(** [HTTPRequestHandler::handleRequest], with the two threads run one after
    the other: the handle is created and posted, the UI thread makes the calls
    [cs] on it and drops it, and the worker thread, which was blocked in
    [responderFuture.get()], applies the responder to [response]. An empty
    [cs] is also what happens when the posted task is dropped. *)
Definition handleRequest (request : HTTPServerRequest) (response : HTTPServerResponse)
    (cs : list UiCall) : outcome HTTPServerResponse :=
  i ← ui_calls cs (Impl_new request);
  i ← Impl_destroy i;
  f ← future_get (responderPromise_ i);
  Done (f response).

(** Calls that only read the request: [method()] for [true], [path()] for
    [false]. *)
Definition read_calls (reads : list bool) : list UiCall :=
  (λ b : bool, if b then CallMethod else CallPath) <$> reads.

(** The header lines a responder adds when [noCache] is set. *)
Definition no_cache_headers : list (string * string) :=
  [("Cache-Control", "no-cache, no-store, must-revalidate");
   ("Pragma", "no-cache");
   ("Expires", "0")].

(** The responder a writing call hands to the promise. *)
Definition responder_of (c : UiCall) : option Responder :=
  match c with
  | CallMethod | CallPath => None
  | CallSendResponse status contentType contentLength body noCache =>
      Some (responder status contentType contentLength body noCache)
  | CallSendTextResponse status text noCache =>
      Some (responder status "text/plain; charset=UTF-8"
              (N.of_nat (String.length text)) (λ out, out +:+ text) noCache)
  end.

(** The flag and the promise of a handle agree, and a value in the promise
    is a responder built by [sendResponse]. *)
Definition handle_consistent (i : Impl) : Prop :=
  match responderPromise_ i with
  | Some f =>
      responseSent_ i = true
      ∧ ∃ status contentType contentLength body noCache,
          f = responder status contentType contentLength body noCache
  | None => responseSent_ i = false
  end.

(** [HTTPServer::Impl], as far as [shutdown], the task it leads to, and the
    destructor read and write it: the two flags. *)
Record ServerImpl : Type := {
  shutdownStarted_ : bool;
  shutdownComplete_ : bool
}.

(** What the server does outside its own state: it starts the detached
    thread that stops the Poco server, and it reports completion to its
    event handler. *)
Inductive ServerEffect : Type :=
| stopThread
| onHTTPServerShutdownComplete.

(** The constructor: both flags cleared. *)
Definition ServerImpl_new : ServerImpl :=
  {| shutdownStarted_ := false; shutdownComplete_ := false |}.

(** [HTTPServer::Impl::shutdown]. *)
Definition shutdown (s : ServerImpl) : ServerImpl * list ServerEffect :=
  if shutdownStarted_ s then (s, [])
  else ({| shutdownStarted_ := true; shutdownComplete_ := shutdownComplete_ s |},
        [stopThread]).

(** The task the stop thread posts back to the UI thread once [stopAll] has
    returned; [alive] says whether [eventHandler_.lock()] succeeds. *)
Definition shutdown_task (alive : bool) (s : ServerImpl) : ServerImpl * list ServerEffect :=
  ({| shutdownStarted_ := shutdownStarted_ s; shutdownComplete_ := true |},
   if alive then [onHTTPServerShutdownComplete] else []).

(** [HTTPServer::Impl::isShutdownComplete]. *)
Definition isShutdownComplete (s : ServerImpl) : bool := shutdownComplete_ s.

(** [HTTPServer::Impl::~Impl]: [CHECK(shutdownComplete_)]. *)
Definition ServerImpl_destroy (s : ServerImpl) : outcome unit :=
  if shutdownComplete_ s then Done () else Aborted.

Definition is_stopThread (x : ServerEffect) : bool :=
  match x with stopThread => true | _ => false end.

(** What happens to a server on the UI thread: a call of [shutdown] (by
    [HTTPServer::shutdown], or by the task [~HTTPServer] posts), or the task
    of a stop thread being run. *)
Inductive ServerEvent : Type :=
| Shutdown
| StopTaskRuns (alive : bool).

(** A server together with the number of stop threads whose task has not
    run yet. A stop task can only run if a stop thread was started for it:
    [None] marks a sequence of events that cannot occur. *)
Definition server_event (e : ServerEvent) (st : ServerImpl * nat)
    : option (ServerImpl * nat * list ServerEffect) :=
  let '(s, threads) := st in
  match e with
  | Shutdown =>
      let '(s, effects) := shutdown s in
      Some (s, (threads + length (List.filter is_stopThread effects))%nat, effects)
  | StopTaskRuns alive =>
      match threads with
      | O => None
      | S threads => let '(s, effects) := shutdown_task alive s in Some (s, threads, effects)
      end
  end.

Fixpoint server_events (es : list ServerEvent) (st : ServerImpl * nat)
    : option (ServerImpl * nat * list ServerEffect) :=
  match es with
  | [] => Some (st, [])
  | e :: es =>
      '(st, effects) ← server_event e st;
      '(st, rest) ← server_events es st;
      Some (st, effects ++ rest)
  end.

Definition is_shutdown_complete (x : ServerEffect) : bool :=
  match x with onHTTPServerShutdownComplete => true | _ => false end.

(** The server of a run, the stop threads it started and the completions it
    reported agree with its two flags. *)
Definition server_consistent (s : ServerImpl) (threads stops reports : nat) : Prop :=
  if shutdownStarted_ s then
    stops = 1%nat
    ∧ ((threads = 1%nat ∧ shutdownComplete_ s = false ∧ reports = 0%nat)
       ∨ (threads = 0%nat ∧ shutdownComplete_ s = true ∧ (reports ≤ 1)%nat))
  else
    threads = 0%nat ∧ shutdownComplete_ s = false ∧ stops = 0%nat ∧ reports = 0%nat.

End Http.

(** ** src/download_manager.cpp *)

Module Download.

(** What the file takes from the rest of the repository and from the
    platform: [toString] (declared in a header that is not part of these
    sources) renders a file index, and [TempDir::create()] returns a new
    temporary directory, of which only the path is read. *)
Class Platform : Type := {
  toString : Z → string;
  TempDir_create : string
}.

(** Engine callback objects are compared by identity only: a
    [CefBeforeDownloadCallback] or [CefDownloadItemCallback] the engine hands
    over is a non-null object, named here by a number. A [CefRefPtr] field,
    which the code also sets to [nullptr], is an [option]. *)
Definition CefBeforeDownloadCallback : Type := N.
Definition CefDownloadItemCallback : Type := N.

(** The getters of [CefDownloadItem] the handler calls. [GetId] is a
    [uint32_t], [GetPercentComplete] an [int]. *)
Record CefDownloadItem : Type := {
  IsValid : bool;
  GetId : N;
  IsComplete : bool;
  IsInProgress : bool;
  GetPercentComplete : Z
}.

Record DownloadInfo : Type := {
  fileIdx : Z;
  name : string;
  startCallback : option CefBeforeDownloadCallback;
  cancelCallback : option CefDownloadItemCallback;
  progress : Z
}.

(** [CompletedDownload]: the path and name given to its constructor. *)
Record CompletedDownload : Type := {
  path_ : string;
  name_ : string
}.

(** Calls that leave the manager, in program order. *)
Inductive Effect : Type :=
| Continue (callback : CefBeforeDownloadCallback) (path : string) (showDialog : bool)
| Cancel (callback : CefDownloadItemCallback)
| unlink (path : string)
| onPendingDownloadCountChanged (count : Z)
| onDownloadProgressChanged (progress : list Z)
| onDownloadCompleted (file : CompletedDownload).

(** [DownloadManager]. [eventHandler_] is only ever the target of
    [postTask]; the posted tasks are the last three effects above.
    [tempDir_] holds the path of the directory once it was created.
    The [int] values ([fileIdx], [nextFileIdx_], [progress], a queue length)
    are integers of [Z]: nothing below depends on a run long enough to
    exhaust the range of [int]. The entries of [infos_] are visited in the
    order of [map_to_list]; the properties below are stated so that they hold
    for whichever order the container iterates in. *)
Record DownloadManager : Type := {
  infos_ : gmap N DownloadInfo;
  pending_ : list N;
  nextFileIdx_ : Z;
  tempDir_ : option string
}.

(** The constructor. *)
Definition DownloadManager_new : DownloadManager :=
  {| infos_ := ∅; pending_ := []; nextFileIdx_ := 1; tempDir_ := None |}.

Definition set_infos (f : gmap N DownloadInfo → gmap N DownloadInfo)
    (m : DownloadManager) : DownloadManager :=
  {| infos_ := f (infos_ m); pending_ := pending_ m;
     nextFileIdx_ := nextFileIdx_ m; tempDir_ := tempDir_ m |}.

Definition set_startCallback (c : option CefBeforeDownloadCallback)
    (info : DownloadInfo) : DownloadInfo :=
  {| fileIdx := fileIdx info; name := name info; startCallback := c;
     cancelCallback := cancelCallback info; progress := progress info |}.

Definition set_cancelCallback (c : option CefDownloadItemCallback)
    (info : DownloadInfo) : DownloadInfo :=
  {| fileIdx := fileIdx info; name := name info; startCallback := startCallback info;
     cancelCallback := c; progress := progress info |}.

Definition set_progress (p : Z) (info : DownloadInfo) : DownloadInfo :=
  {| fileIdx := fileIdx info; name := name info; startCallback := startCallback info;
     cancelCallback := cancelCallback info; progress := p |}.

(** [operator<] of [pair<int, int>], which [sort] uses, and the order that
    [sort] leaves between neighbours. *)
Definition pair_lt (a b : Z * Z) : Prop :=
  a.1 < b.1 ∨ (¬ b.1 < a.1 ∧ a.2 < b.2).

Definition pair_le (a b : Z * Z) : Prop := ¬ pair_lt b a.

#[global] Instance pair_lt_dec : RelDecision pair_lt.
Proof. intros a b. unfold pair_lt. apply _. Defined.

#[global] Instance pair_le_dec : RelDecision pair_le.
Proof. intros a b. unfold pair_le. apply _. Defined.

(** [sort(pairs.begin(), pairs.end())]. The order is total and
    antisymmetric, so the sorted vector is determined by its elements
    ([sort_unique] below); a merge sort computes it. *)
Definition sort (pairs : list (Z * Z)) : list (Z * Z) := merge_sort pair_le pairs.

Section WithPlatform.
Context `{Platform}.

(** The directory [getFilePath_] uses: the one already created, or a new one. *)
Definition tempDir_path (m : DownloadManager) : string :=
  match tempDir_ m with
  | Some dir => dir
  | None => TempDir_create
  end.

Definition file_path (dir : string) (fileIdx : Z) : string :=
  dir +:+ "/file_" +:+ toString fileIdx +:+ ".bin".

(** [getFilePath_]: creates the directory on first use. *)
Definition getFilePath_ (fileIdx : Z) (m : DownloadManager) : string * DownloadManager :=
  let m :=
    match tempDir_ m with
    | Some _ => m
    | None =>
        {| infos_ := infos_ m; pending_ := pending_ m;
           nextFileIdx_ := nextFileIdx_ m; tempDir_ := Some TempDir_create |}
    end in
  (file_path (tempDir_path m) fileIdx, m).

(** The manager after [getFilePath_]: the directory exists. *)
Definition with_tempDir (m : DownloadManager) : DownloadManager :=
  {| infos_ := infos_ m; pending_ := pending_ m;
     nextFileIdx_ := nextFileIdx_ m; tempDir_ := Some (tempDir_path m) |}.

(** [unlinkFile_]; whether [unlink] succeeds only decides a log line. *)
Definition unlinkFile_ (fileIdx : Z) (m : DownloadManager) : DownloadManager * list Effect :=
  let '(path, m) := getFilePath_ fileIdx m in
  (m, [unlink path]).

Definition pendingDownloadCountChanged_ (m : DownloadManager) : list Effect :=
  [onPendingDownloadCountChanged (Z.of_nat (length (pending_ m)))].

(** The first loop of [downloadProgressChanged_], over the entries of
    [infos_] in iteration order. *)
Definition progress_pairs (entries : list (N * DownloadInfo)) : list (Z * Z) :=
  omap (λ elem : N * DownloadInfo,
          match startCallback elem.2 with
          | None => Some (fileIdx elem.2, progress elem.2)
          | Some _ => None
          end) entries.

(** The vector [progress] that [downloadProgressChanged_] posts. *)
Definition progress_payload (entries : list (N * DownloadInfo)) : list Z :=
  (sort (progress_pairs entries)).*2.

Definition downloadProgressChanged_ (m : DownloadManager) : list Effect :=
  [onDownloadProgressChanged (progress_payload (map_to_list (infos_ m)))].

(** [DownloadHandler::OnBeforeDownload]. The increment of [nextFileIdx_]
    is that of an [int]: the embedding agrees with the code as long as the
    counter is below [INT_MAX]. *)
Definition OnBeforeDownload (downloadItem : CefDownloadItem) (suggestedName : string)
    (callback : CefBeforeDownloadCallback) (m : DownloadManager)
    : outcome (DownloadManager * list Effect) :=
  (* REQUIRE(downloadItem->IsValid()) *)
  if negb (IsValid downloadItem) then Aborted else
  let id := GetId downloadItem in
  match infos_ m !! id with
  | Some _ => Aborted (* REQUIRE(!infos_.count(id)) *)
  | None =>
      let info :=
        {| fileIdx := nextFileIdx_ m; name := suggestedName;
           startCallback := Some callback; cancelCallback := None; progress := 0 |} in
      let m :=
        {| infos_ := <[id := info]> (infos_ m); pending_ := pending_ m ++ [id];
           nextFileIdx_ := nextFileIdx_ m + 1; tempDir_ := tempDir_ m |} in
      Done (m, pendingDownloadCountChanged_ m)
  end.

(** Lines 100-104: the progress stored for a raw [GetPercentComplete]. *)
Definition stored_progress (percentComplete : Z) : Z :=
  let progress := percentComplete in
  let progress := if decide (progress = -1) then 50 else progress in
  Z.max 0 (Z.min 100 progress).

(** [DownloadHandler::OnDownloadUpdated]. *)
Definition OnDownloadUpdated (downloadItem : CefDownloadItem)
    (callback : CefDownloadItemCallback) (m : DownloadManager)
    : outcome (DownloadManager * list Effect) :=
  (* REQUIRE(downloadItem->IsValid()) *)
  if negb (IsValid downloadItem) then Aborted else
  let id := GetId downloadItem in
  match infos_ m !! id with
  | None => Done (m, [])
  | Some info =>
      match startCallback info with
      | Some _ => Done (m, [])
      | None =>
          let info := set_cancelCallback (Some callback) info in
          let m := set_infos (insert id info) m in
          if IsComplete downloadItem then
            let '(path, m) := getFilePath_ (fileIdx info) m in
            let file := {| path_ := path; name_ := name info |} in
            let m := set_infos (delete id) m in
            Done (m, [onDownloadCompleted file] ++ downloadProgressChanged_ m)
          else if negb (IsInProgress downloadItem) then
            let '(m, unlinked) := unlinkFile_ (fileIdx info) m in
            let m := set_infos (delete id) m in
            Done (m, [Cancel callback] ++ unlinked ++ downloadProgressChanged_ m)
          else
            let info := set_progress (stored_progress (GetPercentComplete downloadItem)) info in
            let m := set_infos (insert id info) m in
            Done (m, downloadProgressChanged_ m)
      end
  end.

(** One iteration of the loop of [~DownloadManager]. *)
Definition destroy_entry (acc : DownloadManager * list Effect) (p : N * DownloadInfo)
    : DownloadManager * list Effect :=
  let '(m, effects) := acc in
  let info := p.2 in
  match startCallback info with
  | Some _ => (m, effects)
  | None =>
      let cancelled :=
        match cancelCallback info with
        | Some callback => [Cancel callback]
        | None => []
        end in
      let '(m, unlinked) := unlinkFile_ (fileIdx info) m in
      (m, effects ++ cancelled ++ unlinked)
  end.

(** [DownloadManager::~DownloadManager]: the effects of the loop over [infos_]. *)
Definition DownloadManager_destroy (m : DownloadManager) : list Effect :=
  (foldl destroy_entry (m, []) (map_to_list (infos_ m))).2.

(** [DownloadManager::acceptPendingDownload]. *)
Definition acceptPendingDownload (m : DownloadManager)
    : outcome (DownloadManager * list Effect) :=
  match pending_ m with
  | [] => Done (m, [])
  | id :: rest =>
      let m :=
        {| infos_ := infos_ m; pending_ := rest;
           nextFileIdx_ := nextFileIdx_ m; tempDir_ := tempDir_ m |} in
      let counted := pendingDownloadCountChanged_ m in
      match infos_ m !! id with
      | None => Aborted (* REQUIRE(infos_.count(id)) *)
      | Some info =>
          let '(path, m) := getFilePath_ (fileIdx info) m in
          match startCallback info with
          | None => Aborted (* REQUIRE(info.startCallback) *)
          | Some callback =>
              let info := set_startCallback None info in
              let m := set_infos (insert id info) m in
              Done (m, counted ++ [Continue callback path false]
                         ++ downloadProgressChanged_ m)
          end
      end
  end.

(** The entry points of the manager, as the engine and the owner call them. *)
Inductive Call : Type :=
| BeforeDownload (downloadItem : CefDownloadItem) (suggestedName : string)
    (callback : CefBeforeDownloadCallback)
| DownloadUpdated (downloadItem : CefDownloadItem) (callback : CefDownloadItemCallback)
| AcceptPending.

Definition call (c : Call) (m : DownloadManager) : outcome (DownloadManager * list Effect) :=
  match c with
  | BeforeDownload downloadItem suggestedName callback =>
      OnBeforeDownload downloadItem suggestedName callback m
  | DownloadUpdated downloadItem callback => OnDownloadUpdated downloadItem callback m
  | AcceptPending => acceptPendingDownload m
  end.

(** A sequence of calls; the effects are kept per call. *)
Fixpoint calls (cs : list Call) (m : DownloadManager)
    : outcome (DownloadManager * list (list Effect)) :=
  match cs with
  | [] => Done (m, [])
  | c :: cs =>
      '(m, effects) ← call c m;
      '(m, rest) ← calls cs m;
      Done (m, effects :: rest)
  end.

End WithPlatform.

(** Classification of effects. *)
Definition is_Continue (e : Effect) : bool :=
  match e with Continue _ _ _ => true | _ => false end.

Definition is_Cancel (e : Effect) : bool :=
  match e with Cancel _ => true | _ => false end.

Definition is_completed (e : Effect) : bool :=
  match e with onDownloadCompleted _ => true | _ => false end.

Definition is_progress_changed (e : Effect) : bool :=
  match e with onDownloadProgressChanged _ => true | _ => false end.

Definition is_unlink (e : Effect) : bool :=
  match e with unlink _ => true | _ => false end.

Definition is_BeforeDownload (c : Call) : bool :=
  match c with BeforeDownload _ _ _ => true | _ => false end.

(** A download-begin call for the id [id]. *)
Definition begins_id (id : N) (c : Call) : bool :=
  match c with
  | BeforeDownload downloadItem _ _ => bool_decide (GetId downloadItem = id)
  | _ => false
  end.

(** [CompletedDownload::~CompletedDownload]; whether [unlink] succeeds only
    decides a log line. *)
Definition CompletedDownload_destroy (file : CompletedDownload) : list Effect :=
  [unlink (path_ file)].

(** The largest [int]. *)
Definition INT_MAX : Z := 2147483647.

(** Whether the manager holds an entry for [id]. *)
Definition held (m : DownloadManager) (id : N) : nat :=
  match infos_ m !! id with
  | Some _ => 1
  | None => 0
  end.

(** An update event for the id [id]. *)
Definition updates_id (id : N) (c : Call) : bool :=
  match c with
  | DownloadUpdated downloadItem _ => bool_decide (GetId downloadItem = id)
  | _ => false
  end.

(** The number of [onDownloadCompleted] tasks that the update events for
    [id] posted in a run, [log] giving the effects call by call. *)
Fixpoint completions (id : N) (cs : list Call) (log : list (list Effect)) : nat :=
  match cs, log with
  | c :: cs, effects :: log =>
      ((if updates_id id c then length (List.filter is_completed effects) else 0)
       + completions id cs log)%nat
  | _, _ => 0%nat
  end.

(** What a run has seen of the downloads it accepted. An accept call enters
    the id at the head of the queue with [None]: accepted, no update event
    handled yet. An update event for an id that was entered replaces that by
    the callback of the event, or removes the id when the event finds the
    download complete or no longer in progress. Update events for other ids,
    and begin events, change nothing. *)
Definition track (c : Call) (m : DownloadManager)
    (seen : gmap N (option CefDownloadItemCallback))
    : gmap N (option CefDownloadItemCallback) :=
  match c with
  | BeforeDownload _ _ _ => seen
  | AcceptPending =>
      match pending_ m with
      | id :: _ => <[id := None]> seen
      | [] => seen
      end
  | DownloadUpdated downloadItem callback =>
      match seen !! GetId downloadItem with
      | Some _ =>
          if IsComplete downloadItem || negb (IsInProgress downloadItem)
          then delete (GetId downloadItem) seen
          else <[GetId downloadItem := Some callback]> seen
      | None => seen
      end
  end.

Fixpoint tracked `{Platform} (cs : list Call) (m : DownloadManager)
    (seen : gmap N (option CefDownloadItemCallback))
    : gmap N (option CefDownloadItemCallback) :=
  match cs with
  | [] => seen
  | c :: cs =>
      match call c m with
      | Done (m', _) => tracked cs m' (track c m seen)
      | Aborted => seen
      end
  end.

(** The entries of the manager are as [seen] says: an id with [Some c] is
    an entry with the start callback cleared and [c] as cancel callback; any
    other entry has its start callback set and no cancel callback. *)
Definition tracks (m : DownloadManager)
    (seen : gmap N (option CefDownloadItemCallback)) : Prop :=
  ∀ id,
    match seen !! id with
    | Some c =>
        ∃ info, infos_ m !! id = Some info
                ∧ startCallback info = None ∧ cancelCallback info = c
    | None =>
        ∀ info, infos_ m !! id = Some info →
                is_Some (startCallback info) ∧ cancelCallback info = None
    end.

(** The start callbacks a list of effects continued, those a run's calls
    registered, and those of the queued downloads, each in order. *)
Definition continued (effects : list Effect) : list CefBeforeDownloadCallback :=
  omap (λ e, match e with Continue callback _ _ => Some callback | _ => None end) effects.

Definition registered (cs : list Call) : list CefBeforeDownloadCallback :=
  omap (λ c, match c with BeforeDownload _ _ callback => Some callback | _ => None end) cs.

Definition queued_callback (infos : gmap N DownloadInfo) (id : N)
    : option CefBeforeDownloadCallback :=
  infos !! id ≫= startCallback.

Definition queued (m : DownloadManager) : list CefBeforeDownloadCallback :=
  omap (queued_callback (infos_ m)) (pending_ m).

(** As long as the directory does not exist, no download was accepted. *)
Definition directory_lazy (m : DownloadManager) : Prop :=
  tempDir_ m = None → ∀ id info, infos_ m !! id = Some info → is_Some (startCallback info).

(** The queue and the entries agree: no id is queued twice, and the queued
    ids are those of the entries whose start callback is set. *)
Definition queue_consistent (m : DownloadManager) : Prop :=
  NoDup (pending_ m)
  ∧ ∀ id, id ∈ pending_ m ↔
          ∃ info, infos_ m !! id = Some info ∧ is_Some (startCallback info).

(** File indices were handed out by the counter: each lies below it, and no
    two entries share one. *)
Definition indices_distinct (m : DownloadManager) : Prop :=
  1 ≤ nextFileIdx_ m
  ∧ (∀ id info, infos_ m !! id = Some info → 1 ≤ fileIdx info < nextFileIdx_ m)
  ∧ (∀ id1 id2 info1 info2,
       infos_ m !! id1 = Some info1 → infos_ m !! id2 = Some info2 →
       fileIdx info1 = fileIdx info2 → id1 = id2).

Definition progress_in_range (m : DownloadManager) : Prop :=
  map_Forall (λ _ info, 0 ≤ progress info ≤ 100) (infos_ m).

(** An entry of [infos_] whose start callback is cleared: a download that
    was accepted. *)
Definition accepted (elem : N * DownloadInfo) : Prop := startCallback elem.2 = None.

#[global] Instance accepted_dec elem : Decision (accepted elem).
Proof. unfold accepted. apply _. Defined.

(** The effects of [~DownloadManager] for one entry of [infos_], the
    directory being [dir]. *)
Definition entry_teardown `{Platform} (dir : string) (elem : N * DownloadInfo) : list Effect :=
  match startCallback elem.2 with
  | Some _ => []
  | None =>
      match cancelCallback elem.2 with
      | Some callback => [Cancel callback]
      | None => []
      end ++ [unlink (file_path dir (fileIdx elem.2))]
  end.

(** The manager with the head of the pending queue removed. *)
Definition set_pending (pending : list N) (m : DownloadManager) : DownloadManager :=
  {| infos_ := infos_ m; pending_ := pending;
     nextFileIdx_ := nextFileIdx_ m; tempDir_ := tempDir_ m |}.

(** Download-begin events and the calls they make. *)
Definition Begin : Type := CefDownloadItem * string * CefBeforeDownloadCallback.

Definition begin_calls (begins : list Begin) : list Call :=
  (λ b : Begin, BeforeDownload b.1.1 b.1.2 b.2) <$> begins.

(** At most one of the two capability fields of an entry is set. *)
Definition at_most_one_capability (info : DownloadInfo) : Prop :=
  startCallback info = None ∨ cancelCallback info = None.

(** The update calls of a list of engine events. *)
Definition updates (events : list (CefDownloadItem * CefDownloadItemCallback)) : list Call :=
  (λ u, DownloadUpdated u.1 u.2) <$> events.

(** The table of the progress values stored for raw engine values, the
    engine's value for an unknown total size being -1. *)
Definition progress_table : list (Z * Z) :=
  [(-50, 0); (0, 0); (37, 37); (100, 100); (101, 100); (9999, 100); (-1, 50)].

(** The two capability fields of an entry, as the specification puts it:
    exactly one of them is set. *)
Definition exactly_one_capability (info : DownloadInfo) : Prop :=
  (is_Some (startCallback info) ∧ cancelCallback info = None)
  ∨ (startCallback info = None ∧ is_Some (cancelCallback info)).

(** A platform to run examples on: indices in decimal, a fixed directory. *)
Definition example_platform : Platform :=
  {| toString := λ z, pretty z; TempDir_create := "/tmp/browservice" |}.

(** A download item for the examples. *)
Definition example_item (id : N) (complete inProgress : bool) (percent : Z)
    : CefDownloadItem :=
  {| IsValid := true; GetId := id; IsComplete := complete;
     IsInProgress := inProgress; GetPercentComplete := percent |}.

(** One download begun with start callback 10 and then accepted. *)
Definition example_accept : list Call :=
  [BeforeDownload (example_item 1 false true 0) "a.bin" 10%N; AcceptPending].

(** The manager after [example_accept]. *)
Definition example_accepted : DownloadManager :=
  {| infos_ := {[ 1%N := {| fileIdx := 1; name := "a.bin"; startCallback := None;
                            cancelCallback := None; progress := 0 |} ]};
     pending_ := [];
     nextFileIdx_ := 2;
     tempDir_ := Some "/tmp/browservice" |}.

(** The entry of [example_accepted]. *)
Definition example_info : DownloadInfo :=
  {| fileIdx := 1; name := "a.bin"; startCallback := None;
     cancelCallback := None; progress := 0 |}.

(** Two download-begin events, with start callbacks 10 and 11. *)
Definition example_begins : list Begin :=
  [(example_item 7 false true 0, "a.bin", 10%N);
   (example_item 3 false true 0, "b.bin", 11%N)].

(** The ledger of the teardown example: download 5 accepted with file
    index 3 and cancel callback 21, download 2 awaiting acceptance with file
    index 4 and start callback 12. *)
Definition example_teardown : DownloadManager :=
  {| infos_ :=
       {[ 5%N := {| fileIdx := 3; name := "a.bin"; startCallback := None;
                    cancelCallback := Some 21%N; progress := 40 |};
          2%N := {| fileIdx := 4; name := "b.bin"; startCallback := Some 12%N;
                    cancelCallback := None; progress := 0 |} ]};
     pending_ := [2%N];
     nextFileIdx_ := 5;
     tempDir_ := Some "/tmp/browservice" |}.

(** Three accepted downloads whose ids are not in the order of their file
    indices, and one that awaits acceptance. *)
Definition example_progress : DownloadManager :=
  {| infos_ :=
       {[ 9%N := {| fileIdx := 1; name := "a"; startCallback := None;
                    cancelCallback := Some 21%N; progress := 80 |};
          4%N := {| fileIdx := 2; name := "b"; startCallback := None;
                    cancelCallback := None; progress := 10 |};
          6%N := {| fileIdx := 3; name := "c"; startCallback := Some 12%N;
                    cancelCallback := None; progress := 0 |};
          1%N := {| fileIdx := 4; name := "d"; startCallback := None;
                    cancelCallback := Some 22%N; progress := 55 |} ]};
     pending_ := [6%N];
     nextFileIdx_ := 5;
     tempDir_ := Some "/tmp/browservice" |}.

(** The effects of [example_accept], call by call. *)
Definition example_accept_log : list (list Effect) :=
  [[onPendingDownloadCountChanged 1];
   [onPendingDownloadCountChanged 0;
    Continue 10%N "/tmp/browservice/file_1.bin" false;
    onDownloadProgressChanged [0]]].

(** The manager after the first call of [example_accept]. *)
Definition example_begun_info : DownloadInfo :=
  {| fileIdx := 1; name := "a.bin"; startCallback := Some 10%N;
     cancelCallback := None; progress := 0 |}.

Definition example_begun : DownloadManager :=
  {| infos_ := {[ 1%N := example_begun_info ]};
     pending_ := [1%N];
     nextFileIdx_ := 2;
     tempDir_ := None |}.

(** [example_accepted] after a progress tick of 130 percent with cancel
    callback 20. *)
Definition example_ticked : DownloadManager :=
  {| infos_ := {[ 1%N := {| fileIdx := 1; name := "a.bin"; startCallback := None;
                            cancelCallback := Some 20%N; progress := 100 |} ]};
     pending_ := [];
     nextFileIdx_ := 2;
     tempDir_ := Some "/tmp/browservice" |}.

(** [example_accept] followed by the progress tick that leads to
    [example_ticked], and the effects of that run. *)
Definition example_tick : list Call :=
  example_accept ++ [DownloadUpdated (example_item 1 false true 130) 20%N].

Definition example_tick_log : list (list Effect) :=
  example_accept_log ++ [[onDownloadProgressChanged [100]]].

Definition example_ticked_info : DownloadInfo :=
  {| fileIdx := 1; name := "a.bin"; startCallback := None;
     cancelCallback := Some 20%N; progress := 100 |}.

End Download.

(** * Properties of the HTTP request handle *)

Module HttpSpec.
Import Http.

Lemma method_unsent i : responseSent_ i = false → method i = Done (getMethod (request_ i)).
Proof. intros E. unfold method. by rewrite E. Qed.

Lemma path_unsent i : responseSent_ i = false → path i = Done (getURI (request_ i)).
Proof. intros E. unfold path. by rewrite E. Qed.

(** Reading the request leaves the handle as it is. *)
Lemma read_calls_unsent reads i :
  responseSent_ i = false → ui_calls (read_calls reads) i = Done i.
Proof.
  intros E. induction reads as [|b reads IH]; [done|].
  cbn [read_calls fmap list_fmap ui_calls]. fold (read_calls reads).
  destruct b; cbn [ui_call]; [rewrite method_unsent | rewrite path_unsent]; try done;
    cbn; exact IH.
Qed.

(** No responder writes the status line: the [status] captured by the lambda
    is never used. *)
Lemma responder_keeps_status status contentType contentLength body noCache response :
  status_ (responder status contentType contentLength body noCache response)
  = status_ response.
Proof. unfold responder. by destruct noCache. Qed.

Lemma responder_no_cache status contentType contentLength body response :
  headers_ (responder status contentType contentLength body true response)
  = headers_ response ++ [("Content-Type", contentType)] ++ no_cache_headers.
Proof. unfold responder, no_cache_headers. cbn. by rewrite <- !app_assoc. Qed.

(** Every operation that writes leaves [responseSent_] set. *)
Lemma send_sets_responseSent c i i' :
  is_send c = true → ui_call c i = Done i' → responseSent_ i' = true.
Proof.
  destruct c; try discriminate; intros _; cbn [ui_call];
    unfold sendTextResponse, sendResponse;
    destruct (responseSent_ i); try discriminate;
    destruct (responderPromise_ i); cbn; try discriminate;
    by intros [= <-].
Qed.

(** Whatever response object the worker thread holds, the fallback
    responder leaves its status line as it was. *)
Lemma fallback_keeps_status request response reads :
  ∃ r, handleRequest request response (read_calls reads) = Done r
       ∧ status_ r = status_ response
       ∧ stream_ r = stream_ response +:+ fallback_text.
Proof.
  unfold handleRequest. rewrite read_calls_unsent by done.
  eexists. split; [reflexivity|]. done.
Qed.

(** A handle that was answered is destroyed without a second write. *)
Lemma answered_handle_destroyed c i i' :
  is_send c = true → ui_call c i = Done i' → Impl_destroy i' = Done i'.
Proof.
  intros Hs Hc. unfold Impl_destroy.
  by rewrite (send_sets_responseSent c i i' Hs Hc).
Qed.

Example text_response_run :
  handleRequest {| getMethod := "GET"; getURI := "/" |} fresh_response
    [CallMethod; CallPath; CallSendTextResponse 404 "no" false]
  = Done {| status_ := 200;
            headers_ := [("Content-Type", "text/plain; charset=UTF-8")];
            contentLength_ := Some 2%N;
            sent_ := true;
            stream_ := "no" |}.
Proof. reflexivity. Qed.

(** C1, evaluated on the code. A handle that is dropped after any number of
    [method()] / [path()] calls and no response call does release the worker
    thread: the destructor fulfils the promise, and the responder writes the
    fixed text [fallback_text] (32 bytes, not empty) with the three no-cache
    header lines. The status line, however, is not written: the response
    leaves with the status it was created with, 200 for a response object
    fresh from Poco, and not with the 500 the destructor passes down. *)
Theorem fallback_response_status_not_set (request : HTTPServerRequest) (reads : list bool) :
  ∃ r, handleRequest request fresh_response (read_calls reads) = Done r
       ∧ stream_ r = fallback_text
       ∧ String.length (stream_ r) = 32%nat
       ∧ contentLength_ r = Some 32%N
       ∧ headers_ r = ("Content-Type", "text/plain; charset=UTF-8") :: no_cache_headers
       ∧ sent_ r = true
       ∧ status_ r = 200
       ∧ status_ r ≠ 500.
Proof.
  unfold handleRequest. rewrite read_calls_unsent by done.
  eexists. split; [reflexivity|]. cbn. repeat split; done.
Qed.

(** C8. Once one of [sendResponse] / [sendTextResponse] has succeeded on a
    handle, each of [method()], [path()], [sendResponse] and
    [sendTextResponse] fails its [CHECK] on that handle. *)
Theorem operations_after_response_abort (first : UiCall) (i i' : Impl) :
  is_send first = true →
  ui_call first i = Done i' →
  method i' = Aborted
  ∧ path i' = Aborted
  ∧ (∀ status contentType contentLength body noCache,
        sendResponse status contentType contentLength body noCache i' = Aborted)
  ∧ (∀ status text noCache, sendTextResponse status text noCache i' = Aborted)
  ∧ (∀ c, ui_call c i' = Aborted).
Proof.
  intros Hsend Hfirst.
  pose proof (send_sets_responseSent _ _ _ Hsend Hfirst) as E.
  assert (Hm : method i' = Aborted) by (unfold method; by rewrite E).
  assert (Hp : path i' = Aborted) by (unfold path; by rewrite E).
  assert (Hs : ∀ status contentType contentLength body noCache,
             sendResponse status contentType contentLength body noCache i' = Aborted)
    by (intros; unfold sendResponse; by rewrite E).
  assert (Ht : ∀ status text noCache, sendTextResponse status text noCache i' = Aborted)
    by (intros; unfold sendTextResponse; apply Hs).
  repeat split; try done.
  intros [| | |]; cbn [ui_call]; [by rewrite Hm | by rewrite Hp | apply Hs | apply Ht].
Qed.

Lemma operations_after_response_abort_witness :
  let request := {| getMethod := "GET"; getURI := "/index.html" |} in
  let i := Impl_new request in
  let i' := {| request_ := request;
               responderPromise_ :=
                 Some (responder 200 "text/plain; charset=UTF-8" 2
                         (λ out, out +:+ "ok") false);
               responseSent_ := true |} in
  method i' = Aborted
  ∧ path i' = Aborted
  ∧ (∀ status contentType contentLength body noCache,
        sendResponse status contentType contentLength body noCache i' = Aborted)
  ∧ (∀ status text noCache, sendTextResponse status text noCache i' = Aborted)
  ∧ (∀ c, ui_call c i' = Aborted).
Proof.
  apply (operations_after_response_abort
           (CallSendTextResponse 200 "ok" false)
           (Impl_new {| getMethod := "GET"; getURI := "/index.html" |}));
    reflexivity.
Defined.

End HttpSpec.

(** * Properties of the download manager *)

Module DownloadSpec.
Import Download.

Section Steps.
Context `{Platform}.

Lemma getFilePath_eq fileIdx m :
  getFilePath_ fileIdx m = (file_path (tempDir_path m) fileIdx, with_tempDir m).
Proof.
  destruct m as [infos pending next [dir|]]; reflexivity.
Qed.

Lemma unlinkFile_eq fileIdx m :
  unlinkFile_ fileIdx m = (with_tempDir m, [unlink (file_path (tempDir_path m) fileIdx)]).
Proof. unfold unlinkFile_. by rewrite getFilePath_eq. Qed.

(** An update for an id the manager does not hold, or holds with its start
    callback still set, returns at once. *)
Lemma OnDownloadUpdated_unknown downloadItem callback m :
  IsValid downloadItem = true →
  infos_ m !! GetId downloadItem = None →
  OnDownloadUpdated downloadItem callback m = Done (m, []).
Proof. intros Hv Hl. unfold OnDownloadUpdated. by rewrite Hv, Hl. Qed.

Lemma OnDownloadUpdated_awaiting downloadItem callback m info :
  IsValid downloadItem = true →
  infos_ m !! GetId downloadItem = Some info →
  is_Some (startCallback info) →
  OnDownloadUpdated downloadItem callback m = Done (m, []).
Proof.
  intros Hv Hl [c Hc]. unfold OnDownloadUpdated. by rewrite Hv, Hl, Hc.
Qed.

(** The three branches for an id whose start callback is cleared. *)
Lemma OnDownloadUpdated_complete downloadItem callback m info :
  IsValid downloadItem = true →
  infos_ m !! GetId downloadItem = Some info →
  startCallback info = None →
  IsComplete downloadItem = true →
  let m' := set_infos (delete (GetId downloadItem))
              (with_tempDir
                 (set_infos (insert (GetId downloadItem)
                               (set_cancelCallback (Some callback) info)) m)) in
  OnDownloadUpdated downloadItem callback m
  = Done (m', [onDownloadCompleted
                 {| path_ := file_path (tempDir_path m) (fileIdx info);
                    name_ := name info |};
               onDownloadProgressChanged (progress_payload (map_to_list (infos_ m')))]).
Proof.
  intros Hv Hl Hs Hc. unfold OnDownloadUpdated.
  rewrite Hv, Hl, Hs, Hc. cbn [negb]. by rewrite getFilePath_eq.
Qed.

Lemma OnDownloadUpdated_stopped downloadItem callback m info :
  IsValid downloadItem = true →
  infos_ m !! GetId downloadItem = Some info →
  startCallback info = None →
  IsComplete downloadItem = false →
  IsInProgress downloadItem = false →
  let m' := set_infos (delete (GetId downloadItem))
              (with_tempDir
                 (set_infos (insert (GetId downloadItem)
                               (set_cancelCallback (Some callback) info)) m)) in
  OnDownloadUpdated downloadItem callback m
  = Done (m', [Cancel callback;
               unlink (file_path (tempDir_path m) (fileIdx info));
               onDownloadProgressChanged (progress_payload (map_to_list (infos_ m')))]).
Proof.
  intros Hv Hl Hs Hc Hp. unfold OnDownloadUpdated.
  rewrite Hv, Hl, Hs, Hc, Hp. cbn [negb]. by rewrite unlinkFile_eq.
Qed.

Lemma OnDownloadUpdated_tick downloadItem callback m info :
  IsValid downloadItem = true →
  infos_ m !! GetId downloadItem = Some info →
  startCallback info = None →
  IsComplete downloadItem = false →
  IsInProgress downloadItem = true →
  let info' := set_progress (stored_progress (GetPercentComplete downloadItem))
                 (set_cancelCallback (Some callback) info) in
  let m' := set_infos (insert (GetId downloadItem) info')
              (set_infos (insert (GetId downloadItem)
                            (set_cancelCallback (Some callback) info)) m) in
  OnDownloadUpdated downloadItem callback m
  = Done (m', [onDownloadProgressChanged (progress_payload (map_to_list (infos_ m')))]).
Proof.
  intros Hv Hl Hs Hc Hp. unfold OnDownloadUpdated.
  by rewrite Hv, Hl, Hs, Hc, Hp.
Qed.

(** Updates for an id that is not in [infos_] change nothing and cause no
    effect, however many arrive. *)
Lemma updates_unknown id (events : list (CefDownloadItem * CefDownloadItemCallback)) m :
  infos_ m !! id = None →
  Forall (λ u, IsValid u.1 = true ∧ GetId u.1 = id) events →
  calls (updates events) m = Done (m, replicate (length events) []).
Proof.
  intros Hl Hev. induction Hev as [|[item cb] events [Hv Hid] _ IH]; [done|].
  cbn [updates fmap list_fmap calls call length replicate]. fold (updates events).
  cbn in Hv, Hid. subst id.
  rewrite OnDownloadUpdated_unknown by done. cbn. rewrite IH. done.
Qed.

Lemma acceptPendingDownload_empty m :
  pending_ m = [] → acceptPendingDownload m = Done (m, []).
Proof. intros E. unfold acceptPendingDownload. by rewrite E. Qed.

(** C9. With an empty pending queue [acceptPendingDownload] returns the
    manager unchanged and causes no effect: no callback is invoked, no task
    is posted. *)
Theorem accept_on_empty_queue_is_noop (m : DownloadManager) :
  pending_ m = [] → acceptPendingDownload m = Done (m, []).
Proof. intros E. unfold acceptPendingDownload. by rewrite E. Qed.

(** C10. An update event (for a valid download item) whose id is held with
    its start callback cleared posts [onDownloadProgressChanged] exactly once,
    as the last effect, in each of the three branches (completed, stopped,
    progress tick); an event whose id is not held, or is held with its start
    callback still set, changes nothing and posts nothing. *)
Theorem update_posts_progress_once (downloadItem : CefDownloadItem)
    (callback : CefDownloadItemCallback) (m : DownloadManager) :
  IsValid downloadItem = true →
  ∃ m' effects,
    OnDownloadUpdated downloadItem callback m = Done (m', effects)
    ∧ match infos_ m !! GetId downloadItem with
      | Some info =>
          match startCallback info with
          | None =>
              length (List.filter is_progress_changed effects) = 1%nat
              ∧ last effects
                = Some (onDownloadProgressChanged
                          (progress_payload (map_to_list (infos_ m'))))
          | Some _ => m' = m ∧ effects = []
          end
      | None => m' = m ∧ effects = []
      end.
Proof.
  intros Hv.
  destruct (infos_ m !! GetId downloadItem) as [info|] eqn:Hl.
  2: { exists m, []. by rewrite OnDownloadUpdated_unknown. }
  destruct (startCallback info) as [c|] eqn:Hs.
  { exists m, []. by rewrite (OnDownloadUpdated_awaiting _ _ _ info). }
  destruct (IsComplete downloadItem) eqn:Hc.
  { eexists _, _. split; [by apply (OnDownloadUpdated_complete _ _ _ info)|]. done. }
  destruct (IsInProgress downloadItem) eqn:Hp.
  - eexists _, _. split; [by apply (OnDownloadUpdated_tick _ _ _ info)|]. done.
  - eexists _, _. split; [by apply (OnDownloadUpdated_stopped _ _ _ info)|]. done.
Qed.

(** The completing call: an is-complete update for an id whose start
    callback is cleared posts [onDownloadCompleted] once, for the file of
    that download, and erases the id; updates for that id that follow at once
    have no effect. *)
Lemma completion_step (downloadItem : CefDownloadItem)
    (callback : CefDownloadItemCallback) (m : DownloadManager) (info : DownloadInfo) :
  IsValid downloadItem = true →
  infos_ m !! GetId downloadItem = Some info →
  startCallback info = None →
  IsComplete downloadItem = true →
  ∃ m' effects,
    OnDownloadUpdated downloadItem callback m = Done (m', effects)
    ∧ List.filter is_completed effects
      = [onDownloadCompleted
           {| path_ := file_path (tempDir_path m) (fileIdx info); name_ := name info |}]
    ∧ infos_ m' !! GetId downloadItem = None
    ∧ ∀ later : list (CefDownloadItem * CefDownloadItemCallback),
        Forall (λ u, IsValid u.1 = true ∧ GetId u.1 = GetId downloadItem) later →
        calls (updates later) m' = Done (m', replicate (length later) []).
Proof.
  intros Hv Hl Hs Hc. eexists _, _.
  split; [by apply (OnDownloadUpdated_complete _ _ _ info)|].
  split; [done|].
  split; [apply lookup_delete_eq|].
  intros later Hlater. apply (updates_unknown (GetId downloadItem)); [|done].
  apply lookup_delete_eq.
Qed.

(** C3, as the code has it. A progress tick for an id whose start callback
    is cleared stores [stored_progress] of the raw value: the engine's value
    for an unknown size is -1 and is stored as 50, every other value is
    clamped to the range 0..100. For the raw values -50, 0, 37, 100, 101,
    9999 and -1 the stored values are 0, 0, 37, 100, 100, 100 and 50. *)
Theorem progress_tick_stores_clamped_value (downloadItem : CefDownloadItem)
    (callback : CefDownloadItemCallback) (m : DownloadManager) (info : DownloadInfo) :
  IsValid downloadItem = true →
  infos_ m !! GetId downloadItem = Some info →
  startCallback info = None →
  IsComplete downloadItem = false →
  IsInProgress downloadItem = true →
  ∃ m' effects info',
    OnDownloadUpdated downloadItem callback m = Done (m', effects)
    ∧ infos_ m' !! GetId downloadItem = Some info'
    ∧ 0 ≤ progress info' ≤ 100
    ∧ (GetPercentComplete downloadItem = -1 → progress info' = 50)
    ∧ (GetPercentComplete downloadItem ≠ -1 →
       progress info' = Z.max 0 (Z.min 100 (GetPercentComplete downloadItem)))
    ∧ (∀ raw stored, (raw, stored) ∈ progress_table →
       GetPercentComplete downloadItem = raw → progress info' = stored).
Proof.
  intros Hv Hl Hs Hc Hp. eexists _, _, _.
  split; [by apply (OnDownloadUpdated_tick _ _ _ info)|].
  split; [apply lookup_insert_eq|].
  cbn [progress set_progress]. unfold stored_progress.
  repeat split.
  - lia.
  - case_decide; lia.
  - intros ->. by case_decide.
  - intros Hne. by case_decide.
  - intros raw stored Hin ->. unfold progress_table in Hin.
    repeat (apply elem_of_cons in Hin as [[= -> ->]|Hin]; [by vm_compute|]).
    by apply elem_of_nil in Hin.
Qed.

End Steps.

(** ** The progress vector *)

Section Progress.
Context `{Platform}.

Lemma pair_le_iff a b : pair_le a b ↔ a.1 < b.1 ∨ (a.1 = b.1 ∧ a.2 ≤ b.2).
Proof. unfold pair_le, pair_lt. destruct a, b; cbn. lia. Qed.

#[local] Instance pair_le_total : Total pair_le.
Proof. intros a b. rewrite !pair_le_iff. destruct a, b; cbn. lia. Qed.

#[local] Instance pair_le_trans : Transitive pair_le.
Proof. intros a b c. rewrite !pair_le_iff. destruct a, b, c; cbn. lia. Qed.

#[local] Instance pair_le_antisymm : AntiSymm (=) pair_le.
Proof.
  intros [a1 a2] [b1 b2]. rewrite !pair_le_iff. cbn. intros ??.
  f_equal; lia.
Qed.

Lemma sort_sorted pairs : Sorted pair_le (sort pairs).
Proof. apply Sorted_merge_sort, _. Qed.

Lemma sort_perm pairs : sort pairs ≡ₚ pairs.
Proof. apply merge_sort_Permutation. Qed.

(** Whatever algorithm [sort] runs, its result is this one: a sorted
    rearrangement of the input is unique. *)
Lemma sort_unique pairs sorted :
  sorted ≡ₚ pairs → Sorted pair_le sorted → sorted = sort pairs.
Proof.
  intros Hp Hs. apply (Sorted_unique pair_le); [done|apply sort_sorted|].
  by rewrite sort_perm.
Qed.

Lemma sort_proper pairs1 pairs2 : pairs1 ≡ₚ pairs2 → sort pairs1 = sort pairs2.
Proof.
  intros Hp. apply sort_unique; [|apply sort_sorted].
  by rewrite sort_perm.
Qed.

Lemma progress_pairs_filter entries :
  progress_pairs entries
  = (λ elem : N * DownloadInfo, (fileIdx elem.2, progress elem.2))
      <$> filter accepted entries.
Proof.
  induction entries as [|[id info] entries IH]; [done|].
  cbn [progress_pairs omap list_omap]. fold (progress_pairs entries).
  rewrite filter_cons. cbn [snd].
  destruct (decide (accepted (id, info))) as [Ha|Ha]; unfold accepted in Ha; cbn in Ha.
  - rewrite Ha, fmap_cons. by rewrite IH.
  - destruct (startCallback info); [exact IH|done].
Qed.

Lemma progress_payload_proper entries1 entries2 :
  entries1 ≡ₚ entries2 → progress_payload entries1 = progress_payload entries2.
Proof.
  intros Hp. unfold progress_payload. f_equal. apply sort_proper.
  rewrite !progress_pairs_filter. by rewrite Hp.
Qed.

Lemma Sorted_le_NoDup_lt (l : list Z) : Sorted Z.le l → NoDup l → Sorted Z.lt l.
Proof.
  intros Hs Hn. apply Sorted_StronglySorted in Hs; [|intros ???; lia].
  apply StronglySorted_Sorted.
  induction Hs as [|x l Hs IH Hall]; [constructor|].
  apply NoDup_cons in Hn as [Hx Hn]. constructor; [by apply IH|].
  rewrite Forall_forall in Hall |- *. intros y Hy.
  specialize (Hall y Hy). assert (x ≠ y) by (intros ->; done). lia.
Qed.

(** C7. The vector posted by [downloadProgressChanged_] lists the progress
    of the accepted downloads (the entries of [infos_] whose start callback is
    cleared), each of them once, in ascending order of [fileIdx], strictly
    ascending when the indices differ; it is the same for every order in
    which the entries of [infos_] are visited, so it depends on the contents
    of [infos_] alone. *)
Theorem progress_vector_sorted_by_fileIdx (m : DownloadManager) :
  ∃ ordered : list (N * DownloadInfo),
    downloadProgressChanged_ m
    = [onDownloadProgressChanged ((λ elem, progress elem.2) <$> ordered)]
    ∧ ordered ≡ₚ filter accepted (map_to_list (infos_ m))
    ∧ NoDup ordered.*1
    ∧ (∀ id info, (id, info) ∈ ordered ↔
                   infos_ m !! id = Some info ∧ startCallback info = None)
    ∧ Sorted Z.le ((λ elem, fileIdx elem.2) <$> ordered)
    ∧ (NoDup ((λ elem, fileIdx elem.2) <$> ordered) →
       Sorted Z.lt ((λ elem, fileIdx elem.2) <$> ordered))
    ∧ (∀ entries, entries ≡ₚ map_to_list (infos_ m) →
       progress_payload entries = (λ elem, progress elem.2) <$> ordered).
Proof.
  set (entries := map_to_list (infos_ m)).
  set (f := λ elem : N * DownloadInfo, (fileIdx elem.2, progress elem.2)).
  pose proof (sort_perm (progress_pairs entries)) as Hperm.
  rewrite progress_pairs_filter in Hperm. fold f in Hperm.
  destruct (Permutation_map_inv f (filter accepted entries) Hperm)
    as (ordered & Heq & Hord).
  change (map f ordered) with (f <$> ordered) in Heq.
  assert (Hpayload : progress_payload entries = (λ elem, progress elem.2) <$> ordered).
  { unfold progress_payload. rewrite progress_pairs_filter. fold f.
    rewrite Heq. rewrite <- list_fmap_compose. done. }
  assert (Hsorted : Sorted Z.le ((λ elem, fileIdx elem.2) <$> ordered)).
  { pose proof (sort_sorted (f <$> filter accepted entries)) as Hs.
    rewrite Heq in Hs.
    assert (Hs' : Sorted Z.le (fst <$> (f <$> ordered))).
    { eapply Sorted_fmap; [|exact Hs]. intros a b. rewrite pair_le_iff. lia. }
    by rewrite <- list_fmap_compose in Hs'. }
  exists ordered. split_and!.
  - unfold downloadProgressChanged_. fold entries. by rewrite Hpayload.
  - by symmetry.
  - rewrite <- Hord. apply NoDup_fmap_fst.
    + intros id x y Hx%list_elem_of_filter Hy%list_elem_of_filter.
      destruct Hx as [_ Hx], Hy as [_ Hy].
      apply elem_of_map_to_list in Hx, Hy. congruence.
    + apply NoDup_filter, NoDup_map_to_list.
  - intros id info. rewrite <- Hord, list_elem_of_filter.
    unfold entries. rewrite elem_of_map_to_list. unfold accepted. cbn. tauto.
  - exact Hsorted.
  - intros Hn. by apply Sorted_le_NoDup_lt.
  - intros entries' Hp. rewrite <- Hpayload. by apply progress_payload_proper.
Qed.

End Progress.

(** ** Teardown *)

Section Teardown.
Context `{Platform}.

Lemma destroy_entry_eq m effects elem :
  ∃ m', destroy_entry (m, effects) elem
        = (m', effects ++ entry_teardown (tempDir_path m) elem)
        ∧ tempDir_path m' = tempDir_path m.
Proof.
  unfold destroy_entry, entry_teardown.
  destruct (startCallback elem.2).
  - exists m. by rewrite app_nil_r.
  - rewrite unlinkFile_eq. exists (with_tempDir m). done.
Qed.

Lemma destroy_fold entries m effects :
  (foldl destroy_entry (m, effects) entries).2
  = effects ++ entries ≫= entry_teardown (tempDir_path m).
Proof.
  revert m effects. induction entries as [|elem entries IH]; intros m effects.
  - cbn. by rewrite app_nil_r.
  - cbn [foldl]. destruct (destroy_entry_eq m effects elem) as (m' & -> & Hdir).
    rewrite IH, Hdir. rewrite bind_cons. by rewrite app_assoc.
Qed.

(** The destructor visits every entry once and does for each what
    [entry_teardown] says. *)
Lemma DownloadManager_destroy_eq m :
  DownloadManager_destroy m
  = map_to_list (infos_ m) ≫= entry_teardown (tempDir_path m).
Proof. unfold DownloadManager_destroy. by rewrite destroy_fold. Qed.

Lemma elem_of_destroy m e :
  e ∈ DownloadManager_destroy m ↔
  ∃ id info, infos_ m !! id = Some info
             ∧ e ∈ entry_teardown (tempDir_path m) (id, info).
Proof.
  rewrite DownloadManager_destroy_eq, list_elem_of_bind. split.
  - intros ([id info] & He & Hin). exists id, info.
    by apply elem_of_map_to_list in Hin.
  - intros (id & info & Hl & He). exists (id, info).
    by rewrite elem_of_map_to_list.
Qed.

(** The effects of the destructor on any manager: every accepted download
    (start callback cleared) has its file unlinked and the cancel callback it
    holds invoked; every effect is the unlink or the cancel of such a
    download; no start callback is invoked. *)
Lemma destroy_effects (m : DownloadManager) :
  (∀ id info,
      infos_ m !! id = Some info → startCallback info = None →
      unlink (file_path (tempDir_path m) (fileIdx info)) ∈ DownloadManager_destroy m
      ∧ ∀ callback, cancelCallback info = Some callback →
                    Cancel callback ∈ DownloadManager_destroy m)
  ∧ (∀ e, e ∈ DownloadManager_destroy m →
       ∃ id info,
         infos_ m !! id = Some info ∧ startCallback info = None
         ∧ (e = unlink (file_path (tempDir_path m) (fileIdx info))
            ∨ ∃ callback, cancelCallback info = Some callback ∧ e = Cancel callback))
  ∧ (∀ id info,
       infos_ m !! id = Some info → is_Some (startCallback info) →
       entry_teardown (tempDir_path m) (id, info) = [])
  ∧ List.filter is_Continue (DownloadManager_destroy m) = [].
Proof.
  split_and!.
  - intros id info Hl Hs. split.
    + apply elem_of_destroy. exists id, info. split; [done|].
      unfold entry_teardown. cbn [snd]. rewrite Hs. set_solver.
    + intros callback Hc. apply elem_of_destroy. exists id, info. split; [done|].
      unfold entry_teardown. cbn [snd]. rewrite Hs, Hc. set_solver.
  - intros e (id & info & Hl & He)%elem_of_destroy. exists id, info.
    unfold entry_teardown in He. cbn [snd] in He.
    destruct (startCallback info); [by apply elem_of_nil in He|].
    split_and!; try done.
    destruct (cancelCallback info) as [c|]; cbn in He.
    + apply elem_of_cons in He as [->|He]; [right; by exists c|].
      apply list_elem_of_singleton in He. by left.
    + apply list_elem_of_singleton in He. by left.
  - intros id info _ [c Hs]. unfold entry_teardown. cbn [snd]. by rewrite Hs.
  - rewrite DownloadManager_destroy_eq.
    induction (map_to_list (infos_ m)) as [|elem entries IH]; [done|].
    rewrite bind_cons, List.filter_app, IH, app_nil_r.
    unfold entry_teardown.
    destruct (startCallback elem.2); [done|].
    by destruct (cancelCallback elem.2).
Qed.

End Teardown.

(** ** The capability fields along a run *)

Section Capabilities.
Context `{Platform}.

Lemma acceptPendingDownload_head m id rest info callback :
  pending_ m = id :: rest →
  infos_ m !! id = Some info →
  startCallback info = Some callback →
  let m' := set_infos (insert id (set_startCallback None info))
              (with_tempDir (set_pending rest m)) in
  acceptPendingDownload m
  = Done (m', [onPendingDownloadCountChanged (Z.of_nat (length rest));
               Continue callback (file_path (tempDir_path m) (fileIdx info)) false;
               onDownloadProgressChanged (progress_payload (map_to_list (infos_ m')))]).
Proof.
  intros Hp Hl Hs. unfold acceptPendingDownload. rewrite Hp. cbn [infos_].
  rewrite Hl, getFilePath_eq, Hs. reflexivity.
Qed.

Lemma acceptPendingDownload_inv m m' effects :
  acceptPendingDownload m = Done (m', effects) →
  (pending_ m = [] ∧ m' = m ∧ effects = [])
  ∨ ∃ id rest info callback,
      pending_ m = id :: rest ∧ infos_ m !! id = Some info
      ∧ startCallback info = Some callback
      ∧ m' = set_infos (insert id (set_startCallback None info))
               (with_tempDir (set_pending rest m)).
Proof.
  intros Hacc. destruct (pending_ m) as [|id rest] eqn:Hp.
  { left. rewrite acceptPendingDownload_empty in Hacc by done.
    by injection Hacc as <- <-. }
  right. unfold acceptPendingDownload in Hacc. rewrite Hp in Hacc. cbn [infos_] in Hacc.
  destruct (infos_ m !! id) as [info|] eqn:Hl; [|done].
  rewrite getFilePath_eq in Hacc.
  destruct (startCallback info) as [callback|] eqn:Hs; [|done].
  exists id, rest, info, callback. by injection Hacc as <- _.
Qed.

Lemma OnBeforeDownload_fresh downloadItem suggestedName callback m :
  IsValid downloadItem = true →
  infos_ m !! GetId downloadItem = None →
  let info := {| fileIdx := nextFileIdx_ m; name := suggestedName;
                 startCallback := Some callback; cancelCallback := None;
                 progress := 0 |} in
  OnBeforeDownload downloadItem suggestedName callback m
  = Done ({| infos_ := <[GetId downloadItem := info]> (infos_ m);
             pending_ := pending_ m ++ [GetId downloadItem];
             nextFileIdx_ := nextFileIdx_ m + 1;
             tempDir_ := tempDir_ m |},
          [onPendingDownloadCountChanged (Z.of_nat (length (pending_ m ++ [GetId downloadItem])))]).
Proof. intros Hv Hl. unfold OnBeforeDownload. by rewrite Hv, Hl. Qed.

Lemma OnBeforeDownload_inv downloadItem suggestedName callback m m' effects :
  OnBeforeDownload downloadItem suggestedName callback m = Done (m', effects) →
  infos_ m !! GetId downloadItem = None
  ∧ infos_ m'
    = <[GetId downloadItem :=
          {| fileIdx := nextFileIdx_ m; name := suggestedName;
             startCallback := Some callback; cancelCallback := None;
             progress := 0 |}]> (infos_ m).
Proof.
  unfold OnBeforeDownload. destruct (IsValid downloadItem); [|done]. cbn [negb].
  destruct (infos_ m !! GetId downloadItem); [done|].
  by intros [= <- _].
Qed.

(** What an update can do to [infos_]: nothing, erase an accepted entry, or
    rewrite an accepted entry with the cancel callback set. *)
Lemma OnDownloadUpdated_inv downloadItem callback m m' effects :
  OnDownloadUpdated downloadItem callback m = Done (m', effects) →
  infos_ m' = infos_ m
  ∨ ∃ info, infos_ m !! GetId downloadItem = Some info ∧ startCallback info = None
      ∧ (infos_ m' = delete (GetId downloadItem) (infos_ m)
         ∨ ∃ p, infos_ m'
                = <[GetId downloadItem :=
                      set_progress p (set_cancelCallback (Some callback) info)]> (infos_ m)).
Proof.
  intros Hupd.
  destruct (IsValid downloadItem) eqn:Hv;
    [|unfold OnDownloadUpdated in Hupd; by rewrite Hv in Hupd].
  destruct (infos_ m !! GetId downloadItem) as [info|] eqn:Hl.
  2: { rewrite OnDownloadUpdated_unknown in Hupd by done. left. by injection Hupd as <- _. }
  destruct (startCallback info) as [c|] eqn:Hs.
  { rewrite (OnDownloadUpdated_awaiting _ _ _ info) in Hupd by done.
    left. by injection Hupd as <- _. }
  right. exists info. split_and!; try done.
  destruct (IsComplete downloadItem) eqn:Hc.
  { rewrite (OnDownloadUpdated_complete _ _ _ info) in Hupd by done.
    left. injection Hupd as <- _. cbn. apply delete_insert_eq. }
  destruct (IsInProgress downloadItem) eqn:Hp.
  - rewrite (OnDownloadUpdated_tick _ _ _ info) in Hupd by done.
    right. eexists. injection Hupd as <- _. cbn. apply insert_insert_eq.
  - rewrite (OnDownloadUpdated_stopped _ _ _ info) in Hupd by done.
    left. injection Hupd as <- _. cbn. apply delete_insert_eq.
Qed.

Lemma call_at_most_one c m m' effects :
  call c m = Done (m', effects) →
  map_Forall (λ _, at_most_one_capability) (infos_ m) →
  map_Forall (λ _, at_most_one_capability) (infos_ m').
Proof.
  intros Hcall Hinv. destruct c as [item suggested cb|item cb|]; cbn [call] in Hcall.
  - apply OnBeforeDownload_inv in Hcall as [_ ->].
    apply map_Forall_insert_2; [by right|done].
  - apply OnDownloadUpdated_inv in Hcall as [->|(info & Hl & Hs & [->|[p ->]])].
    + done.
    + by apply map_Forall_delete.
    + apply map_Forall_insert_2; [by left|done].
  - apply acceptPendingDownload_inv in Hcall
      as [(_ & -> & _)|(id & rest & info & cb & _ & _ & _ & ->)]; [done|].
    cbn. apply map_Forall_insert_2; [by left|done].
Qed.

Lemma calls_cons_inv c cs m m' log :
  calls (c :: cs) m = Done (m', log) →
  ∃ m1 effects rest,
    call c m = Done (m1, effects) ∧ calls cs m1 = Done (m', rest)
    ∧ log = effects :: rest.
Proof.
  cbn [calls]. destruct (call c m) as [[m1 effects]|]; cbn; [|done].
  destruct (calls cs m1) as [[m2 rest]|] eqn:Hcs; cbn; [|done].
  intros [= <- <-]. by exists m1, effects, rest.
Qed.

Lemma calls_at_most_one cs m m' log :
  calls cs m = Done (m', log) →
  map_Forall (λ _, at_most_one_capability) (infos_ m) →
  map_Forall (λ _, at_most_one_capability) (infos_ m').
Proof.
  revert m log. induction cs as [|c cs IH]; intros m log Hcalls Hinv.
  - by injection Hcalls as <- _.
  - apply calls_cons_inv in Hcalls as (m1 & effects & rest & Hc & Hcs & _).
    eapply IH; [done|]. by eapply call_at_most_one.
Qed.

(** After any sequence of calls on a new manager, no entry of [infos_] has
    both its start callback and its cancel callback set. *)
Lemma reachable_at_most_one (cs : list Call) (m : DownloadManager)
    (log : list (list Effect)) (id : N) (info : DownloadInfo) :
  calls cs DownloadManager_new = Done (m, log) →
  infos_ m !! id = Some info →
  at_most_one_capability info
  ∧ ¬ (is_Some (startCallback info) ∧ is_Some (cancelCallback info))
  ∧ (is_Some (startCallback info) → cancelCallback info = None).
Proof.
  intros Hcalls Hl.
  assert (Ha : at_most_one_capability info).
  { eapply (calls_at_most_one cs DownloadManager_new m log Hcalls); [|done].
    apply map_Forall_empty. }
  split; [done|]. destruct Ha as [Ha|Ha]; rewrite Ha; split.
  - intros [[? [=]] _].
  - intros [? [=]].
  - intros [_ [? [=]]].
  - done.
Qed.

End Capabilities.

(** ** Acceptance in arrival order *)

Section Fifo.
Context `{Platform}.

Lemma calls_app cs1 cs2 m m1 m2 log1 log2 :
  calls cs1 m = Done (m1, log1) →
  calls cs2 m1 = Done (m2, log2) →
  calls (cs1 ++ cs2) m = Done (m2, log1 ++ log2).
Proof.
  revert m log1. induction cs1 as [|c cs1 IH]; intros m log1 H1 H2.
  - by injection H1 as <- <-.
  - apply calls_cons_inv in H1 as (m0 & effects & rest & Hc & Hcs & ->).
    cbn [app calls]. rewrite Hc. cbn. by rewrite (IH _ _ Hcs H2).
Qed.




End Fifo.

(** ** Concrete runs *)

Section Examples.
#[local] Existing Instance example_platform.

Lemma example_accept_run :
  calls example_accept DownloadManager_new
  = Done (example_accepted,
          [[onPendingDownloadCountChanged 1];
           [onPendingDownloadCountChanged 0;
            Continue 10%N "/tmp/browservice/file_1.bin" false;
            onDownloadProgressChanged [0]]]).
Proof. vm_compute. reflexivity. Qed.

Lemma accept_on_empty_queue_is_noop_witness :
  acceptPendingDownload DownloadManager_new = Done (DownloadManager_new, []).
Proof. apply (accept_on_empty_queue_is_noop DownloadManager_new). reflexivity. Defined.

Lemma update_posts_progress_once_witness :
  ∃ m' effects,
    OnDownloadUpdated (example_item 1 true false 100) 20%N example_accepted
    = Done (m', effects)
    ∧ match infos_ example_accepted !! GetId (example_item 1 true false 100) with
      | Some info =>
          match startCallback info with
          | None =>
              length (List.filter is_progress_changed effects) = 1%nat
              ∧ last effects
                = Some (onDownloadProgressChanged
                          (progress_payload (map_to_list (infos_ m'))))
          | Some _ => m' = example_accepted ∧ effects = []
          end
      | None => m' = example_accepted ∧ effects = []
      end.
Proof.
  apply (update_posts_progress_once (example_item 1 true false 100) 20%N example_accepted).
  reflexivity.
Defined.

Lemma progress_tick_stores_clamped_value_witness :
  ∃ m' effects info',
    OnDownloadUpdated (example_item 1 false true 9999) 20%N example_accepted
    = Done (m', effects)
    ∧ infos_ m' !! GetId (example_item 1 false true 9999) = Some info'
    ∧ 0 ≤ progress info' ≤ 100
    ∧ (GetPercentComplete (example_item 1 false true 9999) = -1 → progress info' = 50)
    ∧ (GetPercentComplete (example_item 1 false true 9999) ≠ -1 →
       progress info'
       = Z.max 0 (Z.min 100 (GetPercentComplete (example_item 1 false true 9999))))
    ∧ (∀ raw stored, (raw, stored) ∈ progress_table →
       GetPercentComplete (example_item 1 false true 9999) = raw →
       progress info' = stored).
Proof.
  apply (progress_tick_stores_clamped_value (example_item 1 false true 9999) 20%N
           example_accepted example_info); reflexivity.
Defined.


(** C3 does not hold as stated: the raw value -1 is the engine's value for
    an unknown size, and the progress stored for it is 50, not 0. *)
Lemma raw_minus_one_is_not_stored_as_zero :
  ∃ m' effects info',
    OnDownloadUpdated (example_item 1 false true (-1)) 20%N example_accepted
    = Done (m', effects)
    ∧ infos_ m' !! 1%N = Some info'
    ∧ progress info' = 50
    ∧ progress info' ≠ 0.
Proof.
  eexists _, _, _. split; [reflexivity|]. split; [reflexivity|]. done.
Qed.

(** C4 does not hold as stated: after a download has begun and has been
    accepted, and before any update for it, its entry has neither callback
    set. *)
Lemma accepted_entry_holds_no_capability :
  ∃ m log info,
    calls example_accept DownloadManager_new = Done (m, log)
    ∧ infos_ m !! 1%N = Some info
    ∧ startCallback info = None
    ∧ cancelCallback info = None
    ∧ ¬ exactly_one_capability info.
Proof.
  eexists example_accepted, _, example_info.
  split; [apply example_accept_run|]. split_and!; try reflexivity.
  intros [[[c Hc] _]|[_ [c Hc]]]; discriminate.
Qed.

(** C6 does not hold as stated: destroying the manager right after a
    download was accepted unlinks its file but invokes no cancel callback,
    the accepted download holding none yet. *)
Lemma accepted_download_not_cancelled_at_teardown :
  ∃ m log info,
    calls example_accept DownloadManager_new = Done (m, log)
    ∧ infos_ m !! 1%N = Some info
    ∧ startCallback info = None
    ∧ DownloadManager_destroy m = [unlink "/tmp/browservice/file_1.bin"]
    ∧ List.filter is_Cancel (DownloadManager_destroy m) = [].
Proof.
  eexists example_accepted, _, example_info.
  split; [apply example_accept_run|]. split_and!; by vm_compute.
Qed.

Example teardown_run :
  DownloadManager_destroy example_teardown
  = [Cancel 21%N; unlink "/tmp/browservice/file_3.bin"].
Proof. vm_compute. reflexivity. Qed.

Example progress_run :
  downloadProgressChanged_ example_progress = [onDownloadProgressChanged [80; 10; 55]].
Proof. vm_compute. reflexivity. Qed.

Example fifo_run :
  ∃ m, calls (begin_calls example_begins ++ [AcceptPending; AcceptPending])
         DownloadManager_new
       = Done (m, [[onPendingDownloadCountChanged 1];
                   [onPendingDownloadCountChanged 2];
                   [onPendingDownloadCountChanged 1;
                    Continue 10%N "/tmp/browservice/file_1.bin" false;
                    onDownloadProgressChanged [0]];
                   [onPendingDownloadCountChanged 0;
                    Continue 11%N "/tmp/browservice/file_2.bin" false;
                    onDownloadProgressChanged [0; 0]]]).
Proof. eexists. vm_compute. reflexivity. Qed.

Example stored_progress_values :
  stored_progress <$> [-50; -1; 0; 37; 100; 101; 9999]
  = [0; 50; 0; 37; 100; 100; 100].
Proof. reflexivity. Qed.

End Examples.

End DownloadSpec.

(** * Further properties of the download manager *)

Module DownloadRuns.
Import Download DownloadSpec.

#[local] Set Warnings "-clear-no-such-hyp".

Section Calls.
Context `{Platform}.

(** ** What a successful call did *)

Lemma OnBeforeDownload_done downloadItem suggestedName callback m m' effects :
  OnBeforeDownload downloadItem suggestedName callback m = Done (m', effects) →
  IsValid downloadItem = true
  ∧ infos_ m !! GetId downloadItem = None
  ∧ infos_ m'
    = <[GetId downloadItem :=
          {| fileIdx := nextFileIdx_ m; name := suggestedName;
             startCallback := Some callback; cancelCallback := None;
             progress := 0 |}]> (infos_ m)
  ∧ pending_ m' = pending_ m ++ [GetId downloadItem]
  ∧ nextFileIdx_ m' = nextFileIdx_ m + 1
  ∧ tempDir_ m' = tempDir_ m
  ∧ effects = [onPendingDownloadCountChanged (Z.of_nat (length (pending_ m')))].
Proof.
  intros Hrun.
  destruct (IsValid downloadItem) eqn:Hv;
    [|unfold OnBeforeDownload in Hrun; by rewrite Hv in Hrun].
  destruct (infos_ m !! GetId downloadItem) eqn:Hl;
    [unfold OnBeforeDownload in Hrun; by rewrite Hv, Hl in Hrun|].
  rewrite OnBeforeDownload_fresh in Hrun by done.
  by injection Hrun as <- <-.
Qed.

Lemma OnDownloadUpdated_done downloadItem callback m m' effects :
  OnDownloadUpdated downloadItem callback m = Done (m', effects) →
  IsValid downloadItem = true
  ∧ pending_ m' = pending_ m
  ∧ nextFileIdx_ m' = nextFileIdx_ m
  ∧ tempDir_path m' = tempDir_path m
  ∧ ((m' = m ∧ effects = []
      ∧ ∀ info, infos_ m !! GetId downloadItem = Some info → is_Some (startCallback info))
     ∨ ∃ info,
         infos_ m !! GetId downloadItem = Some info ∧ startCallback info = None
         ∧ ((IsComplete downloadItem = true
             ∧ infos_ m' = delete (GetId downloadItem) (infos_ m)
             ∧ effects
               = [onDownloadCompleted
                    {| path_ := file_path (tempDir_path m) (fileIdx info);
                       name_ := name info |};
                  onDownloadProgressChanged (progress_payload (map_to_list (infos_ m')))])
            ∨ (IsComplete downloadItem = false ∧ IsInProgress downloadItem = false
               ∧ infos_ m' = delete (GetId downloadItem) (infos_ m)
               ∧ effects
                 = [Cancel callback;
                    unlink (file_path (tempDir_path m) (fileIdx info));
                    onDownloadProgressChanged
                      (progress_payload (map_to_list (infos_ m')))])
            ∨ (IsComplete downloadItem = false ∧ IsInProgress downloadItem = true
               ∧ infos_ m'
                 = <[GetId downloadItem :=
                       set_progress (stored_progress (GetPercentComplete downloadItem))
                         (set_cancelCallback (Some callback) info)]> (infos_ m)
               ∧ effects
                 = [onDownloadProgressChanged
                      (progress_payload (map_to_list (infos_ m')))]))).
Proof.
  intros Hupd.
  destruct (IsValid downloadItem) eqn:Hv;
    [|unfold OnDownloadUpdated in Hupd; by rewrite Hv in Hupd].
  destruct (infos_ m !! GetId downloadItem) as [info|] eqn:Hl.
  2: { rewrite OnDownloadUpdated_unknown in Hupd by done.
       injection Hupd as <- <-. split_and!; try done. left. by split_and!. }
  destruct (startCallback info) as [c|] eqn:Hs.
  { rewrite (OnDownloadUpdated_awaiting _ _ _ info) in Hupd by done.
    injection Hupd as <- <-. split_and!; try done. left. split_and!; try done.
    intros ? [= <-]. by rewrite Hs. }
  destruct (IsComplete downloadItem) eqn:Hc.
  { rewrite (OnDownloadUpdated_complete _ _ _ info) in Hupd by done.
    injection Hupd as <- <-. split_and!; try done.
    right. exists info. split_and!; try done. left. split_and!; try done.
    cbn. apply delete_insert_eq. }
  destruct (IsInProgress downloadItem) eqn:Hp.
  - rewrite (OnDownloadUpdated_tick _ _ _ info) in Hupd by done.
    injection Hupd as <- <-. split_and!; try done.
    right. exists info. split_and!; try done. right. right. split_and!; try done.
    cbn. apply insert_insert_eq.
  - rewrite (OnDownloadUpdated_stopped _ _ _ info) in Hupd by done.
    injection Hupd as <- <-. split_and!; try done.
    right. exists info. split_and!; try done. right. left. split_and!; try done.
    cbn. apply delete_insert_eq.
Qed.

Lemma acceptPendingDownload_done m m' effects :
  acceptPendingDownload m = Done (m', effects) →
  nextFileIdx_ m' = nextFileIdx_ m
  ∧ tempDir_path m' = tempDir_path m
  ∧ ((pending_ m = [] ∧ m' = m ∧ effects = [])
     ∨ ∃ id rest info callback,
         pending_ m = id :: rest ∧ infos_ m !! id = Some info
         ∧ startCallback info = Some callback
         ∧ pending_ m' = rest
         ∧ tempDir_ m' = Some (tempDir_path m)
         ∧ infos_ m' = <[id := set_startCallback None info]> (infos_ m)
         ∧ effects
           = [onPendingDownloadCountChanged (Z.of_nat (length (pending_ m')));
              Continue callback (file_path (tempDir_path m) (fileIdx info)) false;
              onDownloadProgressChanged (progress_payload (map_to_list (infos_ m')))]).
Proof.
  intros Hacc.
  destruct (acceptPendingDownload_inv m m' effects Hacc)
    as [(Hp & -> & ->)|(id & rest & info & cb & Hp & Hl & Hs & ->)].
  { split_and!; try done. by left. }
  rewrite (acceptPendingDownload_head m id rest info cb Hp Hl Hs) in Hacc.
  injection Hacc as <-. split_and!; try done.
  right. exists id, rest, info, cb. by split_and!.
Qed.

(** No call moves the directory, and none lowers the counter. *)
Lemma call_tempDir_path c m m' effects :
  call c m = Done (m', effects) → tempDir_path m' = tempDir_path m.
Proof.
  destruct c as [item suggested cb|item cb|]; cbn [call]; intros Hrun.
  - apply OnBeforeDownload_done in Hrun as (_ & _ & _ & _ & _ & Hd & _).
    unfold tempDir_path. by rewrite Hd.
  - by apply OnDownloadUpdated_done in Hrun as (_ & _ & _ & Hd & _).
  - by apply acceptPendingDownload_done in Hrun as (_ & Hd & _).
Qed.

(** An invariant of every call is an invariant of every run. *)
Lemma calls_invariant (P : DownloadManager → Prop) :
  (∀ c m m' effects, call c m = Done (m', effects) → P m → P m') →
  ∀ cs m m' log, calls cs m = Done (m', log) → P m → P m'.
Proof.
  intros Hstep cs. induction cs as [|c cs IH]; intros m m' log Hrun HP.
  - by injection Hrun as <- _.
  - apply calls_cons_inv in Hrun as (m1 & effects & rest & Hc & Hcs & _).
    eapply IH; [done|]. by eapply Hstep.
Qed.

(** ** The queue and the entries *)

Lemma queue_consistent_not_queued m id info :
  queue_consistent m → infos_ m !! id = Some info → startCallback info = None →
  id ∉ pending_ m.
Proof.
  intros [_ Hq] Hl Hs Hin. apply Hq in Hin as (info' & Hl' & [c Hc]).
  congruence.
Qed.

Lemma call_queue_consistent c m m' effects :
  call c m = Done (m', effects) → queue_consistent m → queue_consistent m'.
Proof.
  intros Hrun Hq. pose proof Hq as [Hn Hiff].
  destruct c as [item suggested cb|item cb|]; cbn [call] in Hrun.
  - apply OnBeforeDownload_done in Hrun as (_ & Hl & Hi & Hp & _).
    unfold queue_consistent. rewrite Hp, Hi. split.
    + apply NoDup_app. split_and!; [done| |apply NoDup_singleton].
      intros id Hin ->%list_elem_of_singleton.
      apply Hiff in Hin as (info & Hl' & _). congruence.
    + intros id. rewrite elem_of_app, list_elem_of_singleton.
      destruct (decide (id = GetId item)) as [->|Hne].
      * rewrite lookup_insert_eq. split; [|by right]. intros _. eexists. split; [done|].
        by eexists.
      * rewrite lookup_insert_ne by done. rewrite Hiff. naive_solver.
  - apply OnDownloadUpdated_done in Hrun
      as (_ & Hp & _ & _ & [(-> & _)|(info & Hl & Hs & Hcase)]); [done|].
    pose proof (queue_consistent_not_queued m _ info Hq Hl Hs) as Hnot.
    unfold queue_consistent. rewrite Hp. split; [done|]. intros id.
    destruct Hcase as [(_ & -> & _)|[(_ & _ & -> & _)|(_ & _ & -> & _)]].
    + destruct (decide (id = GetId item)) as [->|Hne].
      * rewrite lookup_delete_eq. naive_solver.
      * rewrite lookup_delete_ne by done. apply Hiff.
    + destruct (decide (id = GetId item)) as [->|Hne].
      * rewrite lookup_delete_eq. naive_solver.
      * rewrite lookup_delete_ne by done. apply Hiff.
    + destruct (decide (id = GetId item)) as [->|Hne].
      * rewrite lookup_insert_eq. split; [done|].
        intros (info' & [= <-] & [c Hc]). cbn in Hc. congruence.
      * rewrite lookup_insert_ne by done. apply Hiff.
  - apply acceptPendingDownload_done in Hrun
      as (_ & _ & [(_ & -> & _)|(id0 & rest & info & cb & Hp & Hl & Hs & Hp' & _ & Hi & _)]);
      [done|].
    rewrite Hp in Hn. apply NoDup_cons in Hn as [Hid Hn].
    unfold queue_consistent. rewrite Hp', Hi. split; [done|]. intros id.
    destruct (decide (id = id0)) as [->|Hne].
    + rewrite lookup_insert_eq. split; [done|].
      intros (info' & [= <-] & [c Hc]). done.
    + rewrite lookup_insert_ne by done. rewrite <- Hiff, Hp. set_solver.
Qed.

Lemma queue_consistent_new : queue_consistent DownloadManager_new.
Proof.
  split; [apply NoDup_nil_2|]. intros id. cbn. split.
  - by intros ?%elem_of_nil.
  - intros (info & Hl & _). by rewrite lookup_empty in Hl.
Qed.

(** X1. In every state a new manager reaches, no id is queued twice and the
    queued ids are exactly those of the entries whose start callback is set;
    hence the two [REQUIRE]s of [acceptPendingDownload] hold there, and the
    call returns. *)
Theorem accept_never_aborts_after_a_run (cs : list Call) (m : DownloadManager)
    (log : list (list Effect)) :
  calls cs DownloadManager_new = Done (m, log) →
  queue_consistent m
  ∧ ∃ m' effects, acceptPendingDownload m = Done (m', effects)
                  ∧ length (pending_ m') = pred (length (pending_ m)).
Proof.
  intros Hrun.
  assert (Hq : queue_consistent m).
  { eapply (calls_invariant queue_consistent); [|done|apply queue_consistent_new].
    intros. by eapply call_queue_consistent. }
  split; [done|].
  destruct (pending_ m) as [|id rest] eqn:Hp.
  - exists m, []. rewrite acceptPendingDownload_empty by done. by rewrite Hp.
  - destruct Hq as [_ Hiff].
    destruct (proj1 (Hiff id)) as (info & Hl & [cb Hs]); [rewrite Hp; set_solver|].
    eexists _, _. split; [by apply (acceptPendingDownload_head m id rest info cb)|].
    done.
Qed.

(** ** File indices *)

Lemma indices_distinct_insert_same m m' id info info' :
  indices_distinct m →
  infos_ m !! id = Some info → fileIdx info' = fileIdx info →
  infos_ m' = <[id := info']> (infos_ m) → nextFileIdx_ m' = nextFileIdx_ m →
  indices_distinct m'.
Proof.
  intros (Hone & Hb & Hinj) Hl Hf Hi Hnext.
  unfold indices_distinct. rewrite Hi, Hnext. split_and!; [done| |].
  - intros id1 info1. destruct (decide (id1 = id)) as [->|Hne].
    + rewrite lookup_insert_eq. intros [= <-]. rewrite Hf. by eapply Hb.
    + rewrite lookup_insert_ne by done. apply Hb.
  - intros id1 id2 info1 info2.
    destruct (decide (id1 = id)) as [->|Hne1], (decide (id2 = id)) as [->|Hne2];
      rewrite ?lookup_insert_eq, ?lookup_insert_ne by done; try done.
    + intros [= <-] Hl2 He. rewrite Hf in He. by eapply Hinj.
    + intros Hl1 [= <-] He. rewrite Hf in He. by eapply Hinj.
    + apply Hinj.
Qed.

Lemma indices_distinct_delete m m' id :
  indices_distinct m →
  infos_ m' = delete id (infos_ m) → nextFileIdx_ m' = nextFileIdx_ m →
  indices_distinct m'.
Proof.
  intros (Hone & Hb & Hinj) Hi Hnext.
  unfold indices_distinct. rewrite Hi, Hnext. split_and!; [done| |].
  - intros id1 info1 [_ Hl]%lookup_delete_Some. by eapply Hb.
  - intros id1 id2 info1 info2 [_ Hl1]%lookup_delete_Some [_ Hl2]%lookup_delete_Some.
    by eapply Hinj.
Qed.

Lemma call_indices_distinct c m m' effects :
  call c m = Done (m', effects) → indices_distinct m → indices_distinct m'.
Proof.
  intros Hrun Hd. pose proof Hd as (Hone & Hb & Hinj).
  destruct c as [item suggested cb|item cb|]; cbn [call] in Hrun.
  - apply OnBeforeDownload_done in Hrun as (_ & Hl & Hi & _ & Hnext & _).
    unfold indices_distinct. rewrite Hi, Hnext. split_and!; [lia| |].
    + intros id1 info1. destruct (decide (id1 = GetId item)) as [->|Hne].
      * rewrite lookup_insert_eq. intros [= <-]. cbn. lia.
      * rewrite lookup_insert_ne by done. intros Hl1%Hb. lia.
    + intros id1 id2 info1 info2.
      destruct (decide (id1 = GetId item)) as [->|Hne1],
               (decide (id2 = GetId item)) as [->|Hne2];
        rewrite ?lookup_insert_eq, ?lookup_insert_ne by done; try done.
      * intros [= <-] Hl2%Hb. cbn. lia.
      * intros Hl1%Hb [= <-]. cbn. lia.
      * apply Hinj.
  - apply OnDownloadUpdated_done in Hrun
      as (_ & _ & Hnext & _ & [(-> & _)|(info & Hl & Hs & Hcase)]); [done|].
    destruct Hcase as [(_ & Hi & _)|[(_ & _ & Hi & _)|(_ & _ & Hi & _)]].
    + by eapply indices_distinct_delete.
    + by eapply indices_distinct_delete.
    + by refine (indices_distinct_insert_same m m' _ info _ Hd Hl _ Hi Hnext).
  - apply acceptPendingDownload_done in Hrun
      as (Hnext & _ & [(_ & -> & _)|(id0 & rest & info & cb & _ & Hl & _ & _ & _ & Hi & _)]);
      [done|].
    by refine (indices_distinct_insert_same m m' _ info _ Hd Hl _ Hi Hnext).
Qed.

Lemma indices_distinct_new : indices_distinct DownloadManager_new.
Proof.
  split_and!; [done| |]; cbn; intros *; by rewrite lookup_empty.
Qed.

Lemma calls_nextFileIdx cs m m' log :
  calls cs m = Done (m', log) →
  nextFileIdx_ m' = nextFileIdx_ m + Z.of_nat (length (List.filter is_BeforeDownload cs)).
Proof.
  revert m log. induction cs as [|c cs IH]; intros m log Hrun.
  - injection Hrun as <- _. cbn. lia.
  - apply calls_cons_inv in Hrun as (m1 & effects & rest & Hc & Hcs & _).
    rewrite (IH _ _ Hcs).
    assert (nextFileIdx_ m1 = nextFileIdx_ m + (if is_BeforeDownload c then 1 else 0)).
    { destruct c as [item suggested cb|item cb|]; cbn [call] in Hc; cbn.
      - by apply OnBeforeDownload_done in Hc as (_ & _ & _ & _ & -> & _).
      - apply OnDownloadUpdated_done in Hc as (_ & _ & -> & _). lia.
      - apply acceptPendingDownload_done in Hc as (-> & _). lia. }
    cbn [List.filter]. destruct (is_BeforeDownload c); cbn [length]; lia.
Qed.

(** X2. File indices are never reused, as long as the counter stays within
    [int]. In a run of a new manager with fewer than [INT_MAX] begin events
    (so that no increment of [nextFileIdx_] overflowed), [nextFileIdx_] is 1
    plus the number of begin events, the index of each entry is at least 1
    and below [nextFileIdx_], hence within [int], and two different ids never
    hold the same index; and if the counter is still below [INT_MAX], the
    next download-begin event is given an index above that of every entry
    held. *)
Theorem file_indices_are_never_shared (cs : list Call) (m : DownloadManager)
    (log : list (list Effect)) :
  calls cs DownloadManager_new = Done (m, log) →
  Z.of_nat (length (List.filter is_BeforeDownload cs)) < INT_MAX →
  nextFileIdx_ m = 1 + Z.of_nat (length (List.filter is_BeforeDownload cs))
  ∧ nextFileIdx_ m ≤ INT_MAX
  ∧ indices_distinct m
  ∧ (∀ id info, infos_ m !! id = Some info → 1 ≤ fileIdx info < INT_MAX)
  ∧ ∀ downloadItem suggestedName callback m' effects,
      nextFileIdx_ m < INT_MAX →
      OnBeforeDownload downloadItem suggestedName callback m = Done (m', effects) →
      nextFileIdx_ m' ≤ INT_MAX
      ∧ ∃ info, infos_ m' !! GetId downloadItem = Some info
                ∧ fileIdx info ≤ INT_MAX
                ∧ ∀ id' info', infos_ m !! id' = Some info' → fileIdx info' < fileIdx info.
Proof.
  intros Hrun Hbound.
  assert (Hd : indices_distinct m).
  { eapply (calls_invariant indices_distinct); [|done|apply indices_distinct_new].
    intros. by eapply call_indices_distinct. }
  pose proof (calls_nextFileIdx _ _ _ _ Hrun) as Hnext. cbn in Hnext.
  pose proof Hd as (_ & Hin & _).
  split_and!; [done|lia|done| |].
  - intros id info Hl. apply Hin in Hl. lia.
  - intros item suggested cb m' effects Hlt Hb.
    apply OnBeforeDownload_done in Hb as (_ & _ & Hi & _ & Hn' & _).
    split; [lia|]. eexists. rewrite Hi, lookup_insert_eq. split; [done|]. cbn.
    split; [lia|]. intros id' info' Hl. apply Hin in Hl. lia.
Qed.

(** ** Progress values *)

Lemma stored_progress_range p : 0 ≤ stored_progress p ≤ 100.
Proof. unfold stored_progress. lia. Qed.

Lemma call_progress_in_range c m m' effects :
  call c m = Done (m', effects) → progress_in_range m → progress_in_range m'.
Proof.
  unfold progress_in_range. intros Hrun Hr.
  destruct c as [item suggested cb|item cb|]; cbn [call] in Hrun.
  - apply OnBeforeDownload_done in Hrun as (_ & _ & -> & _).
    by apply map_Forall_insert_2.
  - apply OnDownloadUpdated_done in Hrun
      as (_ & _ & _ & _ & [(-> & _)|(info & Hl & Hs & Hcase)]); [done|].
    destruct Hcase as [(_ & -> & _)|[(_ & _ & -> & _)|(_ & _ & -> & _)]].
    + by apply map_Forall_delete.
    + by apply map_Forall_delete.
    + apply map_Forall_insert_2; [|done]. apply stored_progress_range.
  - apply acceptPendingDownload_done in Hrun
      as (_ & _ & [(_ & -> & _)|(id0 & rest & info & cb & _ & Hl & _ & _ & _ & -> & _)]);
      [done|].
    apply map_Forall_insert_2; [|done]. by apply (Hr id0 info).
Qed.

(** The values of the posted vector are progress fields of accepted entries. *)
Lemma elem_of_progress_payload (infos : gmap N DownloadInfo) p :
  p ∈ progress_payload (map_to_list infos) →
  ∃ id info, infos !! id = Some info ∧ startCallback info = None ∧ progress info = p.
Proof.
  unfold progress_payload. intros ([f p'] & -> & Hin)%list_elem_of_fmap.
  rewrite sort_perm, progress_pairs_filter in Hin.
  apply list_elem_of_fmap in Hin as ([id info] & [= -> ->] & Hin).
  apply list_elem_of_filter in Hin as [Ha Hin].
  apply elem_of_map_to_list in Hin. by exists id, info.
Qed.

(** Whatever a call posts as progress vector is the vector of the state it
    leaves. *)
Lemma call_progress_posted c m m' effects v :
  call c m = Done (m', effects) →
  onDownloadProgressChanged v ∈ effects →
  v = progress_payload (map_to_list (infos_ m')).
Proof.
  intros Hrun Hin. destruct c as [item suggested cb|item cb|]; cbn [call] in Hrun.
  - apply OnBeforeDownload_done in Hrun as (_ & _ & _ & _ & _ & _ & ->).
    set_solver.
  - apply OnDownloadUpdated_done in Hrun
      as (_ & _ & _ & _ & [(_ & -> & _)|(info & Hl & Hs & Hcase)]); [set_solver|].
    destruct Hcase as [(_ & _ & ->)|[(_ & _ & _ & ->)|(_ & _ & _ & ->)]]; set_solver.
  - apply acceptPendingDownload_done in Hrun
      as (_ & _ & [(_ & _ & ->)|(id0 & rest & info & cb & _ & _ & _ & _ & _ & _ & ->)]);
      set_solver.
Qed.

Lemma calls_progress_posted cs m m' log effects v :
  calls cs m = Done (m', log) → progress_in_range m →
  effects ∈ log → onDownloadProgressChanged v ∈ effects →
  Forall (λ p, 0 ≤ p ≤ 100) v.
Proof.
  revert m log. induction cs as [|c cs IH]; intros m log Hrun Hr Hin Hv.
  - injection Hrun as _ <-. by apply elem_of_nil in Hin.
  - apply calls_cons_inv in Hrun as (m1 & effects1 & rest & Hc & Hcs & ->).
    pose proof (call_progress_in_range c m m1 effects1 Hc Hr) as Hr1.
    apply elem_of_cons in Hin as [->|Hin]; [|by eapply IH].
    rewrite (call_progress_posted c m m1 effects1 v Hc Hv).
    apply Forall_forall. intros p (id & info & Hl & _ & <-)%elem_of_progress_payload.
    by apply (Hr1 id info).
Qed.

(** X3. Every progress value of every vector that a run from a new manager
    posts with [onDownloadProgressChanged] lies between 0 and 100, whatever
    raw values the engine reported; so does the progress stored in every
    entry. *)
Theorem posted_progress_is_a_percentage (cs : list Call) (m : DownloadManager)
    (log : list (list Effect)) :
  calls cs DownloadManager_new = Done (m, log) →
  progress_in_range m
  ∧ ∀ effects v, effects ∈ log → onDownloadProgressChanged v ∈ effects →
                 Forall (λ p, 0 ≤ p ≤ 100) v.
Proof.
  intros Hrun.
  assert (Hnew : progress_in_range DownloadManager_new) by apply map_Forall_empty.
  split.
  - eapply (calls_invariant progress_in_range); [|done|done].
    intros. by eapply call_progress_in_range.
  - intros effects v. by eapply calls_progress_posted.
Qed.

(** ** The pending count and the start callbacks *)

(** X4. A call posts [onPendingDownloadCountChanged] exactly when it changes
    the length of the pending queue, and the count it posts is the length of
    the queue the call leaves. *)
Theorem pending_count_reports_queue_length (c : Call) (m m' : DownloadManager)
    (effects : list Effect) :
  call c m = Done (m', effects) →
  (∀ n, onPendingDownloadCountChanged n ∈ effects →
        n = Z.of_nat (length (pending_ m'))
        ∧ length (pending_ m') ≠ length (pending_ m))
  ∧ (length (pending_ m') ≠ length (pending_ m) →
     onPendingDownloadCountChanged (Z.of_nat (length (pending_ m'))) ∈ effects).
Proof.
  intros Hrun. destruct c as [item suggested cb|item cb|]; cbn [call] in Hrun.
  - apply OnBeforeDownload_done in Hrun as (_ & _ & _ & Hp & _ & _ & ->).
    assert (length (pending_ m') ≠ length (pending_ m))
      by (rewrite Hp, length_app; cbn; lia).
    split; [|set_solver]. intros n Hin. apply list_elem_of_singleton in Hin.
    by injection Hin as ->.
  - apply OnDownloadUpdated_done in Hrun
      as (_ & Hp & _ & _ & [(_ & -> & _)|(info & Hl & Hs & Hcase)]).
    + rewrite Hp. split; [|done]. by intros n ?%elem_of_nil.
    + rewrite Hp. split; [|done]. intros n Hin. exfalso.
      destruct Hcase as [(_ & _ & ->)|[(_ & _ & _ & ->)|(_ & _ & _ & ->)]]; set_solver.
  - apply acceptPendingDownload_done in Hrun
      as (_ & _ & [(_ & -> & ->)|(id0 & rest & info & cb & Hp & _ & _ & Hp' & _ & _ & ->)]).
    + split; [|done]. by intros n ?%elem_of_nil.
    + assert (length (pending_ m') ≠ length (pending_ m))
        by (rewrite Hp, Hp'; cbn; lia).
      split; [|set_solver]. intros n Hin. split; [|done].
      apply elem_of_cons in Hin as [[= ->]|Hin]; [done|]. set_solver.
Qed.

Lemma call_continue_balance c m m' effects :
  call c m = Done (m', effects) →
  (length (List.filter is_Continue effects) + length (pending_ m')
   = length (pending_ m) + (if is_BeforeDownload c then 1 else 0))%nat.
Proof.
  intros Hrun. destruct c as [item suggested cb|item cb|]; cbn [call] in Hrun.
  - apply OnBeforeDownload_done in Hrun as (_ & _ & _ & Hp & _ & _ & ->).
    rewrite Hp, length_app. cbn. lia.
  - apply OnDownloadUpdated_done in Hrun
      as (_ & Hp & _ & _ & [(_ & -> & _)|(info & Hl & Hs & Hcase)]).
    + rewrite Hp. cbn. lia.
    + rewrite Hp.
      destruct Hcase as [(_ & _ & ->)|[(_ & _ & _ & ->)|(_ & _ & _ & ->)]]; cbn; lia.
  - apply acceptPendingDownload_done in Hrun
      as (_ & _ & [(_ & -> & ->)|(id0 & rest & info & cb & Hp & _ & _ & Hp' & _ & _ & ->)]).
    + cbn. lia.
    + rewrite Hp, Hp'. cbn. lia.
Qed.

(** X5. Over any run, the start callbacks invoked and the downloads still
    queued add up to the downloads that were queued at the start and those
    begun since: each download that begins is continued at most once, and is
    in the queue until then. *)
Theorem begun_downloads_are_queued_or_continued (cs : list Call)
    (m m' : DownloadManager) (log : list (list Effect)) :
  calls cs m = Done (m', log) →
  (length (List.filter is_Continue (concat log)) + length (pending_ m')
   = length (pending_ m) + length (List.filter is_BeforeDownload cs))%nat.
Proof.
  revert m log. induction cs as [|c cs IH]; intros m log Hrun.
  - injection Hrun as <- <-. cbn. lia.
  - apply calls_cons_inv in Hrun as (m1 & effects & rest & Hc & Hcs & ->).
    apply call_continue_balance in Hc. apply IH in Hcs.
    cbn [concat List.filter]. rewrite List.filter_app, length_app.
    destruct (is_BeforeDownload c); cbn [length]; lia.
Qed.

(** ** A download from acceptance to its end *)

Lemma call_keeps_identity c m m' effects id info' :
  call c m = Done (m', effects) → begins_id id c = false →
  infos_ m' !! id = Some info' →
  ∃ info, infos_ m !! id = Some info
          ∧ fileIdx info' = fileIdx info ∧ name info' = name info
          ∧ (startCallback info = None → startCallback info' = None).
Proof.
  intros Hrun Hb Hl'. destruct c as [item suggested cb|item cb|];
    cbn [call] in Hrun; cbn [begins_id] in Hb.
  - apply OnBeforeDownload_done in Hrun as (_ & _ & Hi & _).
    apply bool_decide_eq_false in Hb.
    rewrite Hi, lookup_insert_ne in Hl' by done. by exists info'.
  - apply OnDownloadUpdated_done in Hrun
      as (_ & _ & _ & _ & [(-> & _)|(info & Hl & Hs & Hcase)]); [by exists info'|].
    destruct Hcase as [(_ & Hi & _)|[(_ & _ & Hi & _)|(_ & _ & Hi & _)]];
      rewrite Hi in Hl'.
    + apply lookup_delete_Some in Hl' as [_ Hl']. by exists info'.
    + apply lookup_delete_Some in Hl' as [_ Hl']. by exists info'.
    + destruct (decide (id = GetId item)) as [->|Hne].
      * rewrite lookup_insert_eq in Hl'. injection Hl' as <-. by exists info.
      * rewrite lookup_insert_ne in Hl' by done. by exists info'.
  - apply acceptPendingDownload_done in Hrun
      as (_ & _ & [(_ & -> & _)|(id0 & rest & info & cb & _ & Hl & _ & _ & _ & Hi & _)]);
      [by exists info'|].
    rewrite Hi in Hl'. destruct (decide (id = id0)) as [->|Hne].
    + rewrite lookup_insert_eq in Hl'. injection Hl' as <-. by exists info.
    + rewrite lookup_insert_ne in Hl' by done. by exists info'.
Qed.

Lemma calls_keep_identity cs m m' log id info' :
  calls cs m = Done (m', log) → Forall (λ c, begins_id id c = false) cs →
  infos_ m' !! id = Some info' →
  tempDir_path m' = tempDir_path m
  ∧ ∃ info, infos_ m !! id = Some info
            ∧ fileIdx info' = fileIdx info ∧ name info' = name info
            ∧ (startCallback info = None → startCallback info' = None).
Proof.
  revert m log. induction cs as [|c cs IH]; intros m log Hrun Hb Hl'.
  - injection Hrun as <- _. split; [done|]. by exists info'.
  - apply calls_cons_inv in Hrun as (m1 & effects & rest & Hc & Hcs & _).
    apply Forall_cons in Hb as [Hb Hbs].
    destruct (IH m1 rest Hcs Hbs Hl') as (Hd & info1 & Hl1 & Hf1 & Hn1 & Hs1).
    destruct (call_keeps_identity c m m1 effects id info1 Hc Hb Hl1)
      as (info & Hl & Hf & Hn & Hs).
    split; [rewrite Hd; by eapply call_tempDir_path|].
    exists info. split_and!; [done|congruence|congruence|auto].
Qed.

(** X6. The path given to the engine when a download is accepted is the
    path the download keeps: after any further calls that do not begin the
    same id anew, a completion event for it hands over a
    [CompletedDownload] with exactly that path and the suggested name
    (unlinking nothing; the handle's destructor unlinks that path), and an
    event that finds it neither complete nor in progress cancels it through
    the callback of that event and unlinks exactly that path. In both cases
    the id is gone afterwards. *)
Theorem accepted_path_is_kept_to_the_end (m : DownloadManager) (id : N) (rest : list N)
    (info : DownloadInfo) (callback : CefBeforeDownloadCallback) :
  pending_ m = id :: rest →
  infos_ m !! id = Some info →
  startCallback info = Some callback →
  ∃ m1 effects1,
    acceptPendingDownload m = Done (m1, effects1)
    ∧ List.filter is_Continue effects1
      = [Continue callback (file_path (tempDir_path m) (fileIdx info)) false]
    ∧ ∀ cs m2 log downloadItem callback2 info2,
        calls cs m1 = Done (m2, log) →
        Forall (λ c, begins_id id c = false) cs →
        IsValid downloadItem = true → GetId downloadItem = id →
        infos_ m2 !! id = Some info2 →
        ∃ m3 effects3,
          OnDownloadUpdated downloadItem callback2 m2 = Done (m3, effects3)
          ∧ (IsComplete downloadItem = true →
             let file := {| path_ := file_path (tempDir_path m) (fileIdx info);
                            name_ := name info |} in
             List.filter is_completed effects3 = [onDownloadCompleted file]
             ∧ CompletedDownload_destroy file
               = [unlink (file_path (tempDir_path m) (fileIdx info))]
             ∧ List.filter is_unlink effects3 = []
             ∧ List.filter is_Cancel effects3 = []
             ∧ infos_ m3 !! id = None)
          ∧ (IsComplete downloadItem = false → IsInProgress downloadItem = false →
             List.filter is_Cancel effects3 = [Cancel callback2]
             ∧ List.filter is_unlink effects3
               = [unlink (file_path (tempDir_path m) (fileIdx info))]
             ∧ List.filter is_completed effects3 = []
             ∧ infos_ m3 !! id = None).
Proof.
  intros Hp Hl Hs.
  pose proof (acceptPendingDownload_head m id rest info callback Hp Hl Hs) as Hacc.
  cbv zeta in Hacc.
  set (m1 := set_infos (insert id (set_startCallback None info))
               (with_tempDir (set_pending rest m))) in *.
  eexists m1, _. split; [exact Hacc|]. split; [done|].
  intros cs m2 log item cb2 info2 Hrun Hb Hv Hid Hl2.
  destruct (calls_keep_identity cs m1 m2 log id info2 Hrun Hb Hl2)
    as (Hd & info1 & Hl1 & Hf & Hn & Hs1).
  assert (info1 = set_startCallback None info) as ->.
  { cbn in Hl1. rewrite lookup_insert_eq in Hl1. by injection Hl1. }
  cbn in Hf, Hn. specialize (Hs1 eq_refl).
  assert (Hd2 : tempDir_path m2 = tempDir_path m) by (by rewrite Hd).
  subst id.
  destruct (IsComplete item) eqn:Hc.
  { pose proof (OnDownloadUpdated_complete item cb2 m2 info2 Hv Hl2 Hs1 Hc) as Hupd.
    cbv zeta in Hupd. rewrite Hd2, Hf, Hn in Hupd.
    eexists _, _. split; [exact Hupd|]. split; [|done].
    intros _. cbn. split_and!; try done. apply lookup_delete_eq. }
  destruct (IsInProgress item) eqn:Hprog.
  - pose proof (OnDownloadUpdated_tick item cb2 m2 info2 Hv Hl2 Hs1 Hc Hprog) as Hupd.
    eexists _, _. split; [exact Hupd|]. done.
  - pose proof (OnDownloadUpdated_stopped item cb2 m2 info2 Hv Hl2 Hs1 Hc Hprog) as Hupd.
    cbv zeta in Hupd. rewrite Hd2, Hf in Hupd.
    eexists _, _. split; [exact Hupd|]. split; [done|].
    intros _ _. cbn. split_and!; try done. apply lookup_delete_eq.
Qed.

(** X7. An update event leaves everything but its own entry alone: the
    queue, the index counter and the directory are as before, every other
    entry is unchanged, no start callback is invoked, and the entry of its id,
    if it stays, keeps its file index, name and (cleared) start callback. *)
Theorem update_touches_only_its_entry (downloadItem : CefDownloadItem)
    (callback : CefDownloadItemCallback) (m m' : DownloadManager)
    (effects : list Effect) :
  OnDownloadUpdated downloadItem callback m = Done (m', effects) →
  pending_ m' = pending_ m
  ∧ nextFileIdx_ m' = nextFileIdx_ m
  ∧ tempDir_path m' = tempDir_path m
  ∧ (∀ id, id ≠ GetId downloadItem → infos_ m' !! id = infos_ m !! id)
  ∧ List.filter is_Continue effects = []
  ∧ (∀ info', infos_ m' !! GetId downloadItem = Some info' →
       ∃ info, infos_ m !! GetId downloadItem = Some info
               ∧ fileIdx info' = fileIdx info ∧ name info' = name info
               ∧ startCallback info' = startCallback info).
Proof.
  intros Hupd. apply OnDownloadUpdated_done in Hupd
    as (_ & Hp & Hn & Hd & [(-> & -> & _)|(info & Hl & Hs & Hcase)]).
  { split_and!; try done. intros info' Hl'. by exists info'. }
  split_and!; try done.
  - intros id Hne.
    destruct Hcase as [(_ & -> & _)|[(_ & _ & -> & _)|(_ & _ & -> & _)]].
    + by rewrite lookup_delete_ne.
    + by rewrite lookup_delete_ne.
    + by rewrite lookup_insert_ne.
  - by destruct Hcase as [(_ & _ & ->)|[(_ & _ & _ & ->)|(_ & _ & _ & ->)]].
  - intros info' Hl'.
    destruct Hcase as [(_ & Hi & _)|[(_ & _ & Hi & _)|(_ & _ & Hi & _)]];
      rewrite Hi in Hl'.
    + by rewrite lookup_delete_eq in Hl'.
    + by rewrite lookup_delete_eq in Hl'.
    + rewrite lookup_insert_eq in Hl'. injection Hl' as <-. by exists info.
Qed.

(** X8. Once a progress tick for an accepted download was handled, tearing
    the manager down cancels that download through the callback the tick
    delivered and unlinks its file. *)
Theorem teardown_after_tick_cancels (downloadItem : CefDownloadItem)
    (callback : CefDownloadItemCallback) (m : DownloadManager) (info : DownloadInfo) :
  IsValid downloadItem = true →
  infos_ m !! GetId downloadItem = Some info →
  startCallback info = None →
  IsComplete downloadItem = false →
  IsInProgress downloadItem = true →
  ∃ m' effects,
    OnDownloadUpdated downloadItem callback m = Done (m', effects)
    ∧ Cancel callback ∈ DownloadManager_destroy m'
    ∧ unlink (file_path (tempDir_path m) (fileIdx info)) ∈ DownloadManager_destroy m'.
Proof.
  intros Hv Hl Hs Hc Hp.
  pose proof (OnDownloadUpdated_tick downloadItem callback m info Hv Hl Hs Hc Hp) as Hupd.
  cbv zeta in Hupd. eexists _, _. split; [exact Hupd|].
  split; apply elem_of_destroy; eexists (GetId downloadItem), _;
    (split; [cbn; apply lookup_insert_eq|]);
    unfold entry_teardown; cbn; rewrite Hs; set_solver.
Qed.

(** ** Order of acceptance in any run *)

Lemma omap_agree {A B} (f g : A → option B) (l : list A) :
  (∀ x, x ∈ l → f x = g x) → omap f l = omap g l.
Proof.
  induction l as [|x l IH]; intros Hfg; [done|].
  cbn. rewrite (Hfg x) by set_solver. rewrite IH; [done|]. intros y Hy. apply Hfg.
  set_solver.
Qed.

Lemma call_order c m m' effects :
  call c m = Done (m', effects) → queue_consistent m →
  continued effects ++ queued m' = queued m ++ registered [c].
Proof.
  intros Hrun Hq. pose proof Hq as [Hn Hiff]. unfold queued.
  destruct c as [item suggested cb|item cb|]; cbn [call] in Hrun.
  - apply OnBeforeDownload_done in Hrun as (_ & Hl & Hi & Hp & _ & _ & ->).
    rewrite Hp, Hi, omap_app. cbn. unfold queued_callback at 2.
    rewrite lookup_insert_eq. cbn. f_equal.
    apply omap_agree. intros id Hin. unfold queued_callback.
    rewrite lookup_insert_ne; [done|]. intros <-.
    apply Hiff in Hin as (info & Hl' & _). congruence.
  - apply OnDownloadUpdated_done in Hrun
      as (_ & Hp & _ & _ & [(-> & -> & _)|(info & Hl & Hs & Hcase)]).
    { cbn. by rewrite app_nil_r. }
    pose proof (queue_consistent_not_queued m _ info Hq Hl Hs) as Hnot.
    rewrite Hp.
    assert (Hsame : omap (queued_callback (infos_ m')) (pending_ m)
                    = omap (queued_callback (infos_ m)) (pending_ m)).
    { apply omap_agree. intros id Hin. unfold queued_callback.
      assert (id ≠ GetId item) by (by intros ->).
      destruct Hcase as [(_ & -> & _)|[(_ & _ & -> & _)|(_ & _ & -> & _)]].
      - by rewrite lookup_delete_ne.
      - by rewrite lookup_delete_ne.
      - by rewrite lookup_insert_ne. }
    rewrite Hsame.
    destruct Hcase as [(_ & _ & ->)|[(_ & _ & _ & ->)|(_ & _ & _ & ->)]];
      cbn; by rewrite app_nil_r.
  - apply acceptPendingDownload_done in Hrun
      as (_ & _ & [(_ & -> & ->)|(id0 & rest & info & cb & Hp & Hl & Hs & Hp' & _ & Hi & ->)]).
    { cbn. by rewrite app_nil_r. }
    rewrite Hp in Hn. apply NoDup_cons in Hn as [Hid Hn].
    rewrite Hp, Hp', Hi. cbn. unfold queued_callback at 2. rewrite Hl. cbn. rewrite Hs.
    rewrite app_nil_r. f_equal.
    apply omap_agree. intros id Hin. unfold queued_callback.
    rewrite lookup_insert_ne; [done|]. by intros <-.
Qed.

Lemma calls_order cs m m' log :
  calls cs m = Done (m', log) → queue_consistent m →
  continued (concat log) ++ queued m' = queued m ++ registered cs.
Proof.
  revert m log. induction cs as [|c cs IH]; intros m log Hrun Hq.
  - injection Hrun as <- <-. cbn. by rewrite app_nil_r.
  - apply calls_cons_inv in Hrun as (m1 & effects & rest & Hc & Hcs & ->).
    pose proof (call_queue_consistent c m m1 effects Hc Hq) as Hq1.
    pose proof (call_order c m m1 effects Hc Hq) as H1.
    pose proof (IH m1 rest Hcs Hq1) as H2.
    assert (Hreg : registered (c :: cs) = registered [c] ++ registered cs).
    { change (c :: cs) with ([c] ++ cs). unfold registered. by rewrite omap_app. }
    rewrite Hreg. cbn [concat]. unfold continued in *. rewrite omap_app.
    by rewrite <- app_assoc, H2, app_assoc, H1, <- app_assoc.
Qed.

(** X14. Downloads are accepted in the order in which they began, however
    begin events, update events and accept calls are interleaved: over any
    run of a new manager, the start callbacks continued so far, followed by
    those of the downloads still queued, are the start callbacks of the
    begin events in their order of arrival. *)
Theorem acceptance_order_is_arrival_order (cs : list Call) (m : DownloadManager)
    (log : list (list Effect)) :
  calls cs DownloadManager_new = Done (m, log) →
  continued (concat log) ++ queued m = registered cs
  ∧ continued (concat log) `prefix_of` registered cs.
Proof.
  intros Hrun.
  pose proof (calls_order cs DownloadManager_new m log Hrun queue_consistent_new) as Ho.
  cbn in Ho. split; [done|]. rewrite <- Ho. by eexists.
Qed.

(** ** The directory *)

Lemma OnDownloadUpdated_tempDir downloadItem callback m m' effects :
  OnDownloadUpdated downloadItem callback m = Done (m', effects) →
  tempDir_ m' = tempDir_ m
  ∨ (tempDir_ m' = Some (tempDir_path m)
     ∧ ∃ info, infos_ m !! GetId downloadItem = Some info ∧ startCallback info = None).
Proof.
  intros Hupd.
  destruct (IsValid downloadItem) eqn:Hv;
    [|unfold OnDownloadUpdated in Hupd; by rewrite Hv in Hupd].
  destruct (infos_ m !! GetId downloadItem) as [info|] eqn:Hl.
  2: { rewrite OnDownloadUpdated_unknown in Hupd by done. left. by injection Hupd as <- _. }
  destruct (startCallback info) as [c|] eqn:Hs.
  { rewrite (OnDownloadUpdated_awaiting _ _ _ info) in Hupd by done.
    left. by injection Hupd as <- _. }
  destruct (IsComplete downloadItem) eqn:Hc.
  { rewrite (OnDownloadUpdated_complete _ _ _ info) in Hupd by done.
    right. injection Hupd as <- _. split; [done|]. by exists info. }
  destruct (IsInProgress downloadItem) eqn:Hp.
  - rewrite (OnDownloadUpdated_tick _ _ _ info) in Hupd by done.
    left. by injection Hupd as <- _.
  - rewrite (OnDownloadUpdated_stopped _ _ _ info) in Hupd by done.
    right. injection Hupd as <- _. split; [done|]. by exists info.
Qed.

Lemma call_directory c m m' effects :
  call c m = Done (m', effects) → directory_lazy m →
  directory_lazy m'
  ∧ (∀ dir, tempDir_ m = Some dir → tempDir_ m' = Some dir)
  ∧ (tempDir_ m = None → (tempDir_ m' = None ↔ continued effects = [])).
Proof.
  intros Hrun Hlazy. destruct c as [item suggested cb|item cb|]; cbn [call] in Hrun.
  - apply OnBeforeDownload_done in Hrun as (_ & _ & Hi & _ & _ & Hd & ->).
    rewrite Hd. split_and!; [|done|done].
    unfold directory_lazy. rewrite Hd, Hi. intros Hnone id info.
    destruct (decide (id = GetId item)) as [->|Hne].
    + rewrite lookup_insert_eq. intros [= <-]. by eexists.
    + rewrite lookup_insert_ne by done. by apply Hlazy.
  - pose proof (OnDownloadUpdated_tempDir _ _ _ _ _ Hrun) as Hdir.
    apply OnDownloadUpdated_done in Hrun
      as (_ & _ & _ & _ & [(-> & -> & _)|(info & Hl & Hs & Hcase)]); [done|].
    assert (Hsome : is_Some (tempDir_ m)).
    { destruct (tempDir_ m) eqn:E; [by eexists|].
      destruct (Hlazy E _ _ Hl) as [? ?]. congruence. }
    destruct Hsome as [dir Hdir0].
    assert (Hd' : tempDir_ m' = Some dir).
    { destruct Hdir as [->|[-> _]]; [done|]. unfold tempDir_path. by rewrite Hdir0. }
    split_and!.
    + intros E. congruence.
    + intros dir' E. congruence.
    + intros E. congruence.
  - apply acceptPendingDownload_done in Hrun
      as (_ & _ & [(_ & -> & ->)|(id0 & rest & info & cb & _ & _ & _ & _ & Hd & _ & ->)]);
      [done|].
    split_and!.
    + intros E. congruence.
    + intros dir E. rewrite Hd. unfold tempDir_path. by rewrite E.
    + intros _. rewrite Hd. cbn. done.
Qed.

Lemma calls_directory cs m m' log :
  calls cs m = Done (m', log) → directory_lazy m →
  directory_lazy m'
  ∧ (∀ dir, tempDir_ m = Some dir → tempDir_ m' = Some dir)
  ∧ (tempDir_ m = None → (tempDir_ m' = None ↔ continued (concat log) = [])).
Proof.
  revert m log. induction cs as [|c cs IH]; intros m log Hrun Hlazy.
  - injection Hrun as <- <-. done.
  - apply calls_cons_inv in Hrun as (m1 & effects & rest & Hc & Hcs & ->).
    destruct (call_directory c m m1 effects Hc Hlazy) as (Hl1 & Hk1 & Hn1).
    destruct (IH m1 rest Hcs Hl1) as (Hl2 & Hk2 & Hn2).
    split_and!; [done|by auto|].
    intros E. cbn [concat]. unfold continued in *. rewrite omap_app.
    specialize (Hn1 E). destruct (tempDir_ m1) as [dir|] eqn:E1.
    + rewrite (Hk2 dir eq_refl). split; [done|].
      intros [H1 _]%app_eq_nil. apply Hn1 in H1. done.
    + rewrite (Hn2 eq_refl). rewrite (proj1 Hn1 eq_refl). done.
Qed.

(** X15. The temporary directory is created lazily and once: in a run of a
    new manager it exists exactly when some download has been accepted (a
    start callback was continued); begin events and ignored updates do not
    create it, and once it exists every later call finds the same one. *)
Theorem directory_is_created_on_first_acceptance (cs : list Call)
    (m : DownloadManager) (log : list (list Effect)) :
  calls cs DownloadManager_new = Done (m, log) →
  (tempDir_ m = None ↔ continued (concat log) = [])
  ∧ (tempDir_ m = None ∨ tempDir_ m = Some TempDir_create)
  ∧ ∀ cs' m' log' dir,
      tempDir_ m = Some dir → calls cs' m = Done (m', log') → tempDir_ m' = Some dir.
Proof.
  intros Hrun.
  assert (Hnew : directory_lazy DownloadManager_new).
  { intros _ id info. cbn. by rewrite lookup_empty. }
  destruct (calls_directory cs DownloadManager_new m log Hrun Hnew) as (Hl & _ & Hn).
  split_and!.
  - by apply Hn.
  - pose proof (calls_invariant (λ m, tempDir_path m = TempDir_create)) as Hinv.
    destruct (tempDir_ m) as [dir|] eqn:E; [right|by left].
    assert (Hp : tempDir_path m = TempDir_create).
    { eapply Hinv; [|done|done]. intros c m0 m1 e Hc <-. by eapply call_tempDir_path. }
    unfold tempDir_path in Hp. rewrite E in Hp. by rewrite Hp.
  - intros cs' m' log' dir E Hrun'.
    destruct (calls_directory cs' m m' log' Hrun' Hl) as (_ & Hk & _). by apply Hk.
Qed.

End Calls.

End DownloadRuns.

(** * Further properties of the HTTP request handle and of the server *)

Module HttpRuns.
Import Http HttpSpec.

#[local] Set Warnings "-clear-no-such-hyp".

(** ** The handle *)

Lemma ui_call_sent c i : responseSent_ i = true → ui_call c i = Aborted.
Proof.
  intros E. destruct c; cbn [ui_call]; unfold method, path, sendTextResponse, sendResponse;
    by rewrite E.
Qed.

Lemma ui_call_read (b : bool) i :
  responseSent_ i = false →
  ui_call (if b then CallMethod else CallPath) i = Done i.
Proof.
  intros E. destruct b; cbn [ui_call]; unfold method, path; by rewrite E.
Qed.

Lemma ui_call_send c f i :
  responder_of c = Some f →
  responseSent_ i = false → responderPromise_ i = None →
  ui_call c i
  = Done {| request_ := request_ i; responderPromise_ := Some f; responseSent_ := true |}.
Proof.
  intros Hf E Hp. destruct c; try discriminate; injection Hf as <-;
    cbn [ui_call]; unfold sendTextResponse, sendResponse; by rewrite E, Hp.
Qed.

Lemma is_send_responder_of c : is_send c = true ↔ is_Some (responder_of c).
Proof. destruct c; cbn; split; try done; by intros [? [=]]. Qed.

Lemma ui_call_consistent c i i' :
  ui_call c i = Done i' → handle_consistent i → handle_consistent i'.
Proof.
  intros Hc Hi. destruct (responseSent_ i) eqn:E; [by rewrite ui_call_sent in Hc|].
  unfold handle_consistent in Hi.
  destruct (responderPromise_ i) as [f|] eqn:Hp; [destruct Hi; congruence|].
  destruct (responder_of c) as [f|] eqn:Hf.
  - rewrite (ui_call_send c f i Hf E Hp) in Hc. injection Hc as <-.
    unfold handle_consistent. cbn. split; [done|].
    destruct c; try discriminate; injection Hf as <-; by eexists _, _, _, _, _.
  - assert (i' = i) as ->.
    { destruct c; try discriminate; cbn [ui_call] in Hc; unfold method, path in Hc;
        rewrite E in Hc; by injection Hc. }
    unfold handle_consistent. by rewrite Hp.
Qed.

Lemma ui_calls_consistent cs i i' :
  ui_calls cs i = Done i' → handle_consistent i → handle_consistent i'.
Proof.
  revert i. induction cs as [|c cs IH]; intros i Hcs Hi.
  - by injection Hcs as <-.
  - cbn [ui_calls] in Hcs. destruct (ui_call c i) as [i1|] eqn:Hc; [|done].
    cbn in Hcs. eapply IH; [done|]. by eapply ui_call_consistent.
Qed.

(** The destructor always leaves a responder in the promise. *)
Lemma Impl_destroy_consistent i :
  handle_consistent i →
  ∃ i' status contentType contentLength body noCache,
    Impl_destroy i = Done i'
    ∧ responderPromise_ i'
      = Some (responder status contentType contentLength body noCache).
Proof.
  unfold handle_consistent, Impl_destroy. intros Hi.
  destruct (responderPromise_ i) as [f|] eqn:Hp.
  - destruct Hi as (-> & s & ct & cl & b & nc & ->). by exists i, s, ct, cl, b, nc.
  - rewrite Hi. unfold sendTextResponse, sendResponse. rewrite Hi, Hp. cbn.
    by eexists _, _, _, _, _, _.
Qed.

(** X9. Take calls on a new handle that do not abort. As long as the
    handle exists and none of them was a response call, the promise holds no
    value: the worker thread stays blocked in [responderFuture.get()]. A
    response call puts a responder there, and otherwise the destructor does:
    once the handle has been destroyed, [get()] finds a responder, never a
    broken promise, and the response the worker writes with it has been sent
    and still has the status line it had before, since no responder writes
    it. *)
Theorem worker_is_always_released (request : HTTPServerRequest)
    (response : HTTPServerResponse) (cs : list UiCall) (i : Impl) :
  ui_calls cs (Impl_new request) = Done i →
  (responseSent_ i = false → responderPromise_ i = None)
  ∧ (responseSent_ i = true → is_Some (responderPromise_ i))
  ∧ ∃ i' f,
      Impl_destroy i = Done i'
      ∧ responderPromise_ i' = Some f
      ∧ future_get (responderPromise_ i') = Done f
      ∧ handleRequest request response cs = Done (f response)
      ∧ sent_ (f response) = true
      ∧ status_ (f response) = status_ response.
Proof.
  intros Hcs.
  assert (Hi : handle_consistent i) by (by eapply ui_calls_consistent).
  split_and!.
  - unfold handle_consistent in Hi. destruct (responderPromise_ i); [|done].
    destruct Hi as [-> _]. done.
  - unfold handle_consistent in Hi. destruct (responderPromise_ i); [by eexists|].
    congruence.
  - destruct (Impl_destroy_consistent i Hi) as (i' & s & ct & cl & b & nc & Hd & Hp).
    eexists i', _. split_and!; [done|done|by rewrite Hp| | |].
    + unfold handleRequest. rewrite Hcs. cbn. rewrite Hd. cbn. by rewrite Hp.
    + unfold responder. by destruct nc.
    + apply responder_keeps_status.
Qed.

Lemma ui_calls_reads_then reads cs i :
  responseSent_ i = false →
  ui_calls (read_calls reads ++ cs) i = ui_calls cs i.
Proof.
  intros E. induction reads as [|b reads IH]; [done|].
  cbn [read_calls fmap list_fmap app ui_calls]. fold (read_calls reads).
  rewrite ui_call_read by done. cbn. exact IH.
Qed.

(** X10. The calls a consumer may make on a new handle without aborting
    are exactly: any number of [method()] and [path()] calls, followed by at
    most one of [sendResponse] / [sendTextResponse], followed by nothing. *)
Theorem calls_on_a_handle_that_do_not_abort (request : HTTPServerRequest)
    (cs : list UiCall) :
  (∃ i, ui_calls cs (Impl_new request) = Done i)
  ↔ (∃ reads, cs = read_calls reads)
    ∨ (∃ reads c, is_send c = true ∧ cs = read_calls reads ++ [c]).
Proof.
  split.
  - assert (Hgen : ∀ i, responseSent_ i = false →
              (∃ i', ui_calls cs i = Done i') →
              (∃ reads, cs = read_calls reads)
              ∨ (∃ reads c, is_send c = true ∧ cs = read_calls reads ++ [c])).
    { induction cs as [|c cs IH]; intros i E [i' Hrun].
      { left. by exists []. }
      cbn [ui_calls] in Hrun. destruct (ui_call c i) as [i1|] eqn:Hc; [|done].
      cbn in Hrun. destruct (is_send c) eqn:Hs.
      - right. exists [], c. split; [done|].
        destruct cs as [|c2 cs]; [done|]. exfalso.
        cbn [ui_calls] in Hrun.
        rewrite (ui_call_sent c2 i1) in Hrun; [done|].
        by eapply send_sets_responseSent.
      - assert (i1 = i ∧ ∃ b : bool, c = if b then CallMethod else CallPath)
          as [-> [b ->]].
        { destruct c; try discriminate; cbn [ui_call] in Hc; unfold method, path in Hc;
            rewrite E in Hc; injection Hc as ->;
            (split; [done|]); [by exists true|by exists false]. }
        destruct (IH i E (ex_intro _ i' Hrun)) as [[reads ->]|(reads & c & Hc' & ->)].
        + left. by exists (b :: reads).
        + right. by exists (b :: reads), c. }
    intros Hrun. by apply (Hgen (Impl_new request)).
  - intros [[reads ->]|(reads & c & Hs & ->)].
    + exists (Impl_new request). by apply read_calls_unsent.
    + apply is_send_responder_of in Hs as [f Hf].
      rewrite ui_calls_reads_then by done. cbn [ui_calls].
      rewrite (ui_call_send c f) by done. by eexists.
Qed.

(** X11. A response that was given is the response that is written: after
    the one writing call, the destructor adds nothing, and the worker thread
    applies the responder of that call, not the fallback. *)
Theorem given_response_is_written (request : HTTPServerRequest)
    (response : HTTPServerResponse) (reads : list bool) (c : UiCall) (f : Responder) :
  responder_of c = Some f →
  handleRequest request response (read_calls reads ++ [c]) = Done (f response).
Proof.
  intros Hf. unfold handleRequest.
  rewrite ui_calls_reads_then by done. cbn [ui_calls].
  rewrite (ui_call_send c f) by done. reflexivity.
Qed.

Lemma length_append (s1 s2 : string) :
  String.length (s1 +:+ s2) = (String.length s1 + String.length s2)%nat.
Proof.
  induction s1 as [|a s1 IH]; [done|].
  change (String a s1 +:+ s2) with (String a (s1 +:+ s2)).
  cbn [String.length]. by rewrite IH.
Qed.

(** X12. [sendTextResponse] declares what it writes: the content length of
    the response is the number of bytes the body then appends to the
    stream, the content type is plain text in UTF-8, and the three no-cache
    header lines are added exactly when [noCache] is set. *)
Theorem text_response_declares_its_length (request : HTTPServerRequest)
    (response : HTTPServerResponse) (reads : list bool)
    (status : Z) (text : string) (noCache : bool) :
  ∃ r, handleRequest request response
         (read_calls reads ++ [CallSendTextResponse status text noCache]) = Done r
       ∧ stream_ r = stream_ response +:+ text
       ∧ contentLength_ r = Some (N.of_nat (String.length text))
       ∧ String.length (stream_ r)
         = (String.length (stream_ response) + String.length text)%nat
       ∧ headers_ r
         = headers_ response ++ [("Content-Type", "text/plain; charset=UTF-8")]
             ++ (if noCache then no_cache_headers else [])
       ∧ sent_ r = true.
Proof.
  eexists. split; [by apply given_response_is_written|].
  unfold responder. destruct noCache; cbn; rewrite ?length_append;
    split_and!; try done.
  - by rewrite <- !app_assoc.
Qed.

(** ** The server *)

Lemma server_event_consistent e s threads stops reports s' threads' effects :
  server_event e (s, threads) = Some (s', threads', effects) →
  server_consistent s threads stops reports →
  server_consistent s' threads'
    (stops + length (List.filter is_stopThread effects))
    (reports + length (List.filter is_shutdown_complete effects)).
Proof.
  unfold server_consistent. destruct s as [started complete].
  destruct e as [|alive]; cbn.
  - destruct started; cbn; intros [= <- <- <-]; cbn;
      intuition (try lia; try congruence).
  - destruct threads as [|threads]; [done|]. intros [= <- <- <-].
    destruct started, alive; cbn; intuition (try lia; try congruence).
Qed.

Lemma server_events_consistent es s threads stops reports s' threads' effects :
  server_events es (s, threads) = Some (s', threads', effects) →
  server_consistent s threads stops reports →
  server_consistent s' threads'
    (stops + length (List.filter is_stopThread effects))
    (reports + length (List.filter is_shutdown_complete effects)).
Proof.
  revert s threads stops reports effects.
  induction es as [|e es IH]; intros s threads stops reports effects Hrun Hc.
  - injection Hrun as <- <- <-. cbn. by rewrite !Nat.add_0_r.
  - cbn [server_events] in Hrun.
    destruct (server_event e (s, threads)) as [[[s1 threads1] effects1]|] eqn:He;
      [|done].
    cbn in Hrun.
    destruct (server_events es (s1, threads1)) as [[[s2 threads2] effects2]|] eqn:Hes;
      [|done].
    cbn in Hrun. injection Hrun as <- <- <-.
    rewrite !List.filter_app, !length_app, !Nat.add_assoc.
    eapply IH; [done|]. by eapply server_event_consistent.
Qed.

(** X13. Shutting a server down happens once: however often [shutdown] is
    called, and in whatever order the calls and the stop task run, at most
    one stop thread is started and completion is reported to the event
    handler at most once; the server is complete only after a stop thread
    was started and its task has run, and only then does the destructor's
    [CHECK] pass. *)
Theorem shutdown_happens_once (es : list ServerEvent) (s : ServerImpl)
    (threads : nat) (effects : list ServerEffect) :
  server_events es (ServerImpl_new, 0%nat) = Some (s, threads, effects) →
  (length (List.filter is_stopThread effects) ≤ 1)%nat
  ∧ (length (List.filter is_shutdown_complete effects) ≤ 1)%nat
  ∧ (In Shutdown es ↔ shutdownStarted_ s = true)
  ∧ (isShutdownComplete s = true ↔
     length (List.filter is_stopThread effects) = 1%nat ∧ threads = 0%nat)
  ∧ (ServerImpl_destroy s = Done () ↔ isShutdownComplete s = true).
Proof.
  intros Hrun.
  pose proof (server_events_consistent es ServerImpl_new 0 0 0 s threads effects Hrun)
    as Hc.
  cbn in Hc. specialize (Hc ltac:(done)).
  assert (Hstarted : ∀ es s0 threads0 s1 threads1 effects1,
            server_events es (s0, threads0) = Some (s1, threads1, effects1) →
            shutdownStarted_ s1 = true ↔ (shutdownStarted_ s0 = true ∨ In Shutdown es)).
  { clear. induction es as [|e es IH]; intros s0 threads0 s1 threads1 effects1 Hrun.
    - injection Hrun as <- <- <-. cbn. tauto.
    - cbn [server_events] in Hrun.
      destruct (server_event e (s0, threads0)) as [[[s2 threads2] effects2]|] eqn:He;
        [|done].
      cbn in Hrun.
      destruct (server_events es (s2, threads2)) as [[[s3 threads3] effects3]|] eqn:Hes;
        [|done].
      cbn in Hrun. injection Hrun as <- <- <-.
      rewrite (IH _ _ _ _ _ Hes). cbn [In].
      destruct e as [|alive]; cbn in He.
      + unfold shutdown in He. destruct (shutdownStarted_ s0) eqn:E;
          injection He as <- <- <-; cbn; rewrite ?E; naive_solver.
      + destruct threads0; [done|]. injection He as <- <- <-. cbn.
        split; [intros [?|?]; auto|intros [?|[?|?]]; auto; done]. }
  unfold server_consistent in Hc. unfold isShutdownComplete, ServerImpl_destroy.
  split_and!.
  - destruct (shutdownStarted_ s); lia.
  - destruct (shutdownStarted_ s); lia.
  - rewrite (Hstarted _ _ _ _ _ _ Hrun). cbn. naive_solver.
  - destruct (shutdownStarted_ s), (shutdownComplete_ s); split; intros; try done;
      try lia; destruct Hc as [? ?]; try lia; naive_solver lia.
  - destruct (shutdownComplete_ s); split; done.
Qed.

(** ** Concrete runs *)

Lemma worker_is_always_released_witness :
  ∃ i' f,
    Impl_destroy (Impl_new {| getMethod := "GET"; getURI := "/" |}) = Done i'
    ∧ responderPromise_ i' = Some f
    ∧ future_get (responderPromise_ i') = Done f
    ∧ handleRequest {| getMethod := "GET"; getURI := "/" |} fresh_response
        [CallMethod; CallPath] = Done (f fresh_response)
    ∧ sent_ (f fresh_response) = true
    ∧ status_ (f fresh_response) = status_ fresh_response.
Proof.
  destruct (worker_is_always_released {| getMethod := "GET"; getURI := "/" |}
              fresh_response [CallMethod; CallPath]
              (Impl_new {| getMethod := "GET"; getURI := "/" |})) as (_ & _ & Hrel).
  - reflexivity.
  - exact Hrel.
Defined.

Lemma given_response_is_written_witness :
  handleRequest {| getMethod := "GET"; getURI := "/" |} fresh_response
    (read_calls [true; false] ++ [CallSendTextResponse 200 "ok" false])
  = Done (responder 200 "text/plain; charset=UTF-8" 2 (λ out, out +:+ "ok") false
            fresh_response).
Proof.
  apply (given_response_is_written {| getMethod := "GET"; getURI := "/" |}
           fresh_response [true; false] (CallSendTextResponse 200 "ok" false)).
  reflexivity.
Defined.

Lemma shutdown_happens_once_witness :
  (length (List.filter is_stopThread [stopThread; onHTTPServerShutdownComplete]) ≤ 1)%nat
  ∧ (length (List.filter is_shutdown_complete
               [stopThread; onHTTPServerShutdownComplete]) ≤ 1)%nat
  ∧ (In Shutdown [Shutdown; Shutdown; StopTaskRuns true; Shutdown]
     ↔ shutdownStarted_ {| shutdownStarted_ := true; shutdownComplete_ := true |} = true)
  ∧ (isShutdownComplete {| shutdownStarted_ := true; shutdownComplete_ := true |} = true
     ↔ length (List.filter is_stopThread [stopThread; onHTTPServerShutdownComplete])
       = 1%nat ∧ 0%nat = 0%nat)
  ∧ (ServerImpl_destroy {| shutdownStarted_ := true; shutdownComplete_ := true |}
     = Done ()
     ↔ isShutdownComplete {| shutdownStarted_ := true; shutdownComplete_ := true |}
       = true).
Proof.
  apply (shutdown_happens_once [Shutdown; Shutdown; StopTaskRuns true; Shutdown]
           {| shutdownStarted_ := true; shutdownComplete_ := true |} 0
           [stopThread; onHTTPServerShutdownComplete]).
  reflexivity.
Defined.

Example stop_task_cannot_run_unstarted :
  server_events [StopTaskRuns true] (ServerImpl_new, 0%nat) = None.
Proof. reflexivity. Qed.

Example destroy_before_completion_aborts :
  ServerImpl_destroy (shutdown ServerImpl_new).1 = Aborted.
Proof. reflexivity. Qed.

End HttpRuns.

Module DownloadRunsExamples.
Import Download DownloadSpec DownloadRuns.

#[local] Existing Instance example_platform.

Lemma example_accept_log_run :
  calls example_accept DownloadManager_new = Done (example_accepted, example_accept_log).
Proof. vm_compute. reflexivity. Qed.

Lemma accept_never_aborts_after_a_run_witness :
  queue_consistent example_accepted
  ∧ ∃ m' effects, acceptPendingDownload example_accepted = Done (m', effects)
                  ∧ length (pending_ m') = pred (length (pending_ example_accepted)).
Proof.
  apply (accept_never_aborts_after_a_run example_accept example_accepted
           example_accept_log).
  vm_compute. reflexivity.
Defined.

Lemma file_indices_are_never_shared_witness :
  nextFileIdx_ example_accepted ≤ INT_MAX ∧ indices_distinct example_accepted.
Proof.
  destruct (file_indices_are_never_shared example_accept example_accepted
              example_accept_log) as (_ & Hle & Hd & _).
  - vm_compute. reflexivity.
  - vm_compute. reflexivity.
  - by split.
Defined.

Lemma posted_progress_is_a_percentage_witness : progress_in_range example_accepted.
Proof.
  destruct (posted_progress_is_a_percentage example_accept example_accepted
              example_accept_log) as [Hr _].
  - vm_compute. reflexivity.
  - exact Hr.
Defined.

Lemma pending_count_reports_queue_length_witness :
  onPendingDownloadCountChanged (Z.of_nat (length (pending_ example_begun)))
  ∈ [onPendingDownloadCountChanged 1].
Proof.
  destruct (pending_count_reports_queue_length
              (BeforeDownload (example_item 1 false true 0) "a.bin" 10%N)
              DownloadManager_new example_begun [onPendingDownloadCountChanged 1])
    as [_ Hposted].
  - vm_compute. reflexivity.
  - apply Hposted. cbn. lia.
Defined.

Lemma begun_downloads_are_queued_or_continued_witness :
  (length (List.filter is_Continue (concat example_accept_log))
   + length (pending_ example_accepted)
   = length (pending_ DownloadManager_new)
     + length (List.filter is_BeforeDownload example_accept))%nat.
Proof.
  apply (begun_downloads_are_queued_or_continued example_accept DownloadManager_new
           example_accepted example_accept_log).
  vm_compute. reflexivity.
Defined.

Lemma accepted_path_is_kept_to_the_end_witness :
  ∃ m1 effects1,
    acceptPendingDownload example_begun = Done (m1, effects1)
    ∧ List.filter is_Continue effects1
      = [Continue 10%N (file_path (tempDir_path example_begun)
                          (fileIdx example_begun_info)) false].
Proof.
  destruct (accepted_path_is_kept_to_the_end example_begun 1%N [] example_begun_info 10%N)
    as (m1 & effects1 & Hacc & Hcont & _).
  - reflexivity.
  - reflexivity.
  - reflexivity.
  - by exists m1, effects1.
Defined.

Lemma update_touches_only_its_entry_witness :
  pending_ example_ticked = pending_ example_accepted
  ∧ nextFileIdx_ example_ticked = nextFileIdx_ example_accepted.
Proof.
  destruct (update_touches_only_its_entry (example_item 1 false true 130) 20%N
              example_accepted example_ticked [onDownloadProgressChanged [100]])
    as (Hp & Hn & _).
  - vm_compute. reflexivity.
  - by split.
Defined.

Lemma teardown_after_tick_cancels_witness :
  ∃ m' effects,
    OnDownloadUpdated (example_item 1 false true 130) 20%N example_accepted
    = Done (m', effects)
    ∧ Cancel 20%N ∈ DownloadManager_destroy m'
    ∧ unlink (file_path (tempDir_path example_accepted) (fileIdx example_info))
      ∈ DownloadManager_destroy m'.
Proof.
  apply (teardown_after_tick_cancels (example_item 1 false true 130) 20%N
           example_accepted example_info); reflexivity.
Defined.

(** A download from its begin to its completion, with a second download
    begun in between: the completed file is the one the engine was told to
    write. *)
Example download_life :
  ∃ m, calls [BeforeDownload (example_item 1 false true 0) "a.bin" 10%N;
              AcceptPending;
              BeforeDownload (example_item 2 false true 0) "b.bin" 11%N;
              DownloadUpdated (example_item 1 false true (-1)) 20%N;
              DownloadUpdated (example_item 1 true false 100) 21%N;
              DownloadUpdated (example_item 1 true false 100) 22%N]
         DownloadManager_new
       = Done (m, [[onPendingDownloadCountChanged 1];
                   [onPendingDownloadCountChanged 0;
                    Continue 10%N "/tmp/browservice/file_1.bin" false;
                    onDownloadProgressChanged [0]];
                   [onPendingDownloadCountChanged 1];
                   [onDownloadProgressChanged [50]];
                   [onDownloadCompleted
                      {| path_ := "/tmp/browservice/file_1.bin"; name_ := "a.bin" |};
                    onDownloadProgressChanged []];
                   []]).
Proof. eexists. vm_compute. reflexivity. Qed.

(** A second begin event for an id that is still held aborts. *)
Example begin_twice_aborts :
  calls [BeforeDownload (example_item 1 false true 0) "a.bin" 10%N;
         BeforeDownload (example_item 1 false true 0) "a.bin" 11%N]
    DownloadManager_new
  = Aborted.
Proof. vm_compute. reflexivity. Qed.

Lemma acceptance_order_is_arrival_order_witness :
  continued (concat example_accept_log) ++ queued example_accepted
  = registered example_accept
  ∧ continued (concat example_accept_log) `prefix_of` registered example_accept.
Proof.
  apply (acceptance_order_is_arrival_order example_accept example_accepted
           example_accept_log).
  vm_compute. reflexivity.
Defined.

Lemma directory_is_created_on_first_acceptance_witness :
  tempDir_ example_accepted = None ↔ continued (concat example_accept_log) = [].
Proof.
  destruct (directory_is_created_on_first_acceptance example_accept example_accepted
              example_accept_log) as [Hiff _].
  - vm_compute. reflexivity.
  - exact Hiff.
Defined.

End DownloadRunsExamples.

(** * The ledger along a run: capabilities, completion, teardown *)

Module DownloadLedger.
Import Download DownloadSpec DownloadRuns.

#[local] Set Warnings "-clear-no-such-hyp".

Section Ledger.
Context `{Platform}.

Lemma file_path_spelled dir fileIdx :
  file_path dir fileIdx = dir +:+ "/file_" +:+ toString fileIdx +:+ ".bin".
Proof. reflexivity. Qed.

Lemma tempDir_path_spelled m :
  tempDir_path m = match tempDir_ m with Some dir => dir | None => TempDir_create end.
Proof. reflexivity. Qed.

(** ** What the run has seen agrees with the entries *)

Lemma tracks_new : tracks DownloadManager_new ∅.
Proof. intros id. rewrite lookup_empty. intros info. cbn. by rewrite lookup_empty. Qed.

Lemma tracks_unseen m seen id info :
  tracks m seen → infos_ m !! id = Some info → is_Some (startCallback info) →
  seen !! id = None.
Proof.
  intros Ht Hl [c Hc]. specialize (Ht id). destruct (seen !! id); [|done].
  destruct Ht as (info' & Hl' & Hs & _). congruence.
Qed.

Lemma tracks_seen m seen id info :
  tracks m seen → infos_ m !! id = Some info → startCallback info = None →
  seen !! id = Some (cancelCallback info).
Proof.
  intros Ht Hl Hs. specialize (Ht id). destruct (seen !! id) as [c|].
  - destruct Ht as (info' & Hl' & _ & <-). congruence.
  - destruct (Ht info Hl) as [[c Hc] _]. congruence.
Qed.

Lemma tracks_absent m seen id :
  tracks m seen → infos_ m !! id = None → seen !! id = None.
Proof.
  intros Ht Hl. specialize (Ht id). destruct (seen !! id); [|done].
  destruct Ht as (info' & Hl' & _). congruence.
Qed.

Lemma call_tracks c m m' effects seen :
  call c m = Done (m', effects) → tracks m seen → tracks m' (track c m seen).
Proof.
  intros Hrun Ht. destruct c as [item suggested cb|item cb|];
    cbn [call] in Hrun; cbn [track].
  - apply OnBeforeDownload_done in Hrun as (_ & Hl & Hi & _).
    pose proof (tracks_absent m seen _ Ht Hl) as Hnone.
    intros id. rewrite Hi. destruct (decide (id = GetId item)) as [->|Hne].
    + rewrite Hnone, lookup_insert_eq. intros info [= <-]. cbn. split; [by eexists|done].
    + rewrite lookup_insert_ne by done. apply Ht.
  - apply OnDownloadUpdated_done in Hrun
      as (_ & _ & _ & _ & [(-> & _ & Hign)|(info & Hl & Hs & Hcase)]).
    { assert (seen !! GetId item = None) as ->; [|done].
      destruct (infos_ m !! GetId item) as [info|] eqn:Hl.
      - eapply tracks_unseen; [done|done|by apply Hign].
      - by eapply tracks_absent. }
    rewrite (tracks_seen m seen _ info Ht Hl Hs).
    destruct Hcase as [(Hc & Hi & _)|[(Hc & Hp & Hi & _)|(Hc & Hp & Hi & _)]];
      rewrite Hc, ?Hp; cbn [orb negb]; intros id; rewrite Hi;
      (destruct (decide (id = GetId item)) as [->|Hne];
       [|rewrite ?lookup_delete_ne, ?lookup_insert_ne by done; apply Ht]).
    + rewrite !lookup_delete_eq. done.
    + rewrite !lookup_delete_eq. done.
    + rewrite !lookup_insert_eq. by eexists.
  - apply acceptPendingDownload_done in Hrun
      as (_ & _ & [(Hp & -> & _)|(id0 & rest & info & cb & Hp & Hl & Hs & _ & _ & Hi & _)]).
    { by rewrite Hp. }
    rewrite Hp. pose proof (Ht id0) as Ht0.
    rewrite (tracks_unseen m seen id0 info Ht Hl) in Ht0 by (by eexists).
    destruct (Ht0 info Hl) as [_ Hcancel].
    intros id. rewrite Hi. destruct (decide (id = id0)) as [->|Hne].
    + rewrite !lookup_insert_eq. by eexists.
    + rewrite !lookup_insert_ne by done. apply Ht.
Qed.

Lemma calls_tracks cs m m' log seen :
  calls cs m = Done (m', log) → tracks m seen → tracks m' (tracked cs m seen).
Proof.
  revert m log seen. induction cs as [|c cs IH]; intros m log seen Hrun Ht.
  - by injection Hrun as <- _.
  - apply calls_cons_inv in Hrun as (m1 & effects & rest & Hc & Hcs & _).
    cbn [tracked]. rewrite Hc. eapply IH; [done|]. by eapply call_tracks.
Qed.

(** C4, as the code has it. After any sequence of calls on a new manager,
    an entry has exactly one of its two callbacks set, except from the
    acceptance of its download until the first update event that is handled
    for it, where it has neither: a download that was not accepted holds its
    start callback only; an accepted download for which [tracked] holds the
    callback of an update event holds that callback as its cancel callback
    only; and an accepted download for which no update event was handled yet
    holds none. No entry ever holds both. *)
Theorem exactly_one_capability_outside_the_window (cs : list Call)
    (m : DownloadManager) (log : list (list Effect)) (id : N) (info : DownloadInfo) :
  calls cs DownloadManager_new = Done (m, log) →
  infos_ m !! id = Some info →
  match tracked cs DownloadManager_new ∅ !! id with
  | None => is_Some (startCallback info) ∧ cancelCallback info = None
  | Some None => startCallback info = None ∧ cancelCallback info = None
  | Some (Some callback) =>
      startCallback info = None ∧ cancelCallback info = Some callback
  end
  ∧ (exactly_one_capability info ↔ tracked cs DownloadManager_new ∅ !! id ≠ Some None)
  ∧ ¬ (is_Some (startCallback info) ∧ is_Some (cancelCallback info)).
Proof.
  intros Hrun Hl.
  pose proof (calls_tracks cs DownloadManager_new m log ∅ Hrun tracks_new id) as Ht.
  unfold exactly_one_capability.
  destruct (tracked cs DownloadManager_new ∅ !! id) as [[cb|]|].
  - destruct Ht as (info' & Hl' & Hs & Hc). assert (info' = info) as -> by congruence.
    rewrite Hs, Hc. split_and!; [done|done| |].
    + split; [done|]. intros _. right. split; [done|by eexists].
    + intros [[? [=]] _].
  - destruct Ht as (info' & Hl' & Hs & Hc). assert (info' = info) as -> by congruence.
    rewrite Hs, Hc. split_and!; [done|done| |].
    + split; [|done]. intros [[[? [=]] _]|[_ [? [=]]]].
    + intros [[? [=]] _].
  - destruct (Ht info Hl) as [Hs Hc]. rewrite Hc. split_and!; [done|done| |].
    + split; [done|]. intros _. by left.
    + intros [_ [? [=]]].
Qed.

(** ** Completions of one download along a run *)

Lemma calls_length cs m m' log :
  calls cs m = Done (m', log) → length log = length cs.
Proof.
  revert m log. induction cs as [|c cs IH]; intros m log Hrun.
  - by injection Hrun as _ <-.
  - apply calls_cons_inv in Hrun as (m1 & effects & rest & _ & Hcs & ->).
    cbn. f_equal. by eapply IH.
Qed.

Lemma completions_app id cs1 cs2 log1 log2 :
  length log1 = length cs1 →
  completions id (cs1 ++ cs2) (log1 ++ log2)
  = (completions id cs1 log1 + completions id cs2 log2)%nat.
Proof.
  revert log1. induction cs1 as [|c cs1 IH]; intros [|e log1] Hlen; try done.
  cbn [app completions]. rewrite IH by (cbn in Hlen; lia). lia.
Qed.

Lemma call_completions id c m m' effects :
  call c m = Done (m', effects) →
  ((if updates_id id c then length (List.filter is_completed effects) else 0)
   + held m' id
   ≤ held m id + (if begins_id id c then 1 else 0))%nat.
Proof.
  intros Hrun. unfold held.
  destruct c as [item suggested cb|item cb|]; cbn [call] in Hrun;
    cbn [updates_id begins_id].
  - apply OnBeforeDownload_done in Hrun as (_ & Hl & -> & _).
    case_bool_decide as Hid.
    + subst id. rewrite lookup_insert_eq, Hl. lia.
    + rewrite lookup_insert_ne by done. lia.
  - apply OnDownloadUpdated_done in Hrun
      as (_ & _ & _ & _ & [(-> & -> & _)|(info & Hl & Hs & Hcase)]).
    { cbn. case_bool_decide; lia. }
    case_bool_decide as Hid.
    + subst id. rewrite Hl.
      destruct Hcase as [(_ & -> & ->)|[(_ & _ & -> & ->)|(_ & _ & -> & ->)]];
        rewrite ?lookup_delete_eq, ?lookup_insert_eq; cbn; lia.
    + destruct Hcase as [(_ & -> & _)|[(_ & _ & -> & _)|(_ & _ & -> & _)]];
        rewrite ?lookup_delete_ne, ?lookup_insert_ne by done; lia.
  - apply acceptPendingDownload_done in Hrun
      as (_ & _ & [(_ & -> & _)|(id0 & rest & info & cb & _ & Hl & _ & _ & _ & -> & _)]).
    { lia. }
    destruct (decide (id = id0)) as [->|Hne].
    + rewrite lookup_insert_eq, Hl. lia.
    + rewrite lookup_insert_ne by done. lia.
Qed.

Lemma calls_completions id cs m m' log :
  calls cs m = Done (m', log) →
  (completions id cs log + held m' id
   ≤ held m id + length (List.filter (begins_id id) cs))%nat.
Proof.
  revert m log. induction cs as [|c cs IH]; intros m log Hrun.
  - injection Hrun as <- <-. cbn. lia.
  - apply calls_cons_inv in Hrun as (m1 & effects & rest & Hc & Hcs & ->).
    apply (call_completions id) in Hc. apply IH in Hcs.
    cbn [completions List.filter]. destruct (begins_id id c); cbn [length]; lia.
Qed.

(** Only an is-complete update event posts [onDownloadCompleted]. *)
Lemma call_completed_by_update c m m' effects file :
  call c m = Done (m', effects) → onDownloadCompleted file ∈ effects →
  ∃ downloadItem callback,
    c = DownloadUpdated downloadItem callback ∧ IsComplete downloadItem = true.
Proof.
  intros Hrun Hin. destruct c as [item suggested cb|item cb|]; cbn [call] in Hrun.
  - apply OnBeforeDownload_done in Hrun as (_ & _ & _ & _ & _ & _ & ->). set_solver.
  - apply OnDownloadUpdated_done in Hrun
      as (_ & _ & _ & _ & [(_ & -> & _)|(info & Hl & Hs & Hcase)]); [set_solver|].
    destruct Hcase as [(Hc & _)|[(_ & _ & _ & ->)|(_ & _ & _ & ->)]];
      [by exists item, cb|set_solver|set_solver].
  - apply acceptPendingDownload_done in Hrun
      as (_ & _ & [(_ & _ & ->)|(id0 & rest & info & cb & _ & _ & _ & _ & _ & _ & ->)]);
      set_solver.
Qed.

Lemma calls_completed_by_update cs m m' log (k : nat) c effects file :
  calls cs m = Done (m', log) →
  cs !! k = Some c → log !! k = Some effects → onDownloadCompleted file ∈ effects →
  ∃ downloadItem callback,
    c = DownloadUpdated downloadItem callback ∧ IsComplete downloadItem = true.
Proof.
  revert m log k. induction cs as [|c0 cs IH]; intros m log k Hrun Hc He Hin; [done|].
  apply calls_cons_inv in Hrun as (m1 & effects0 & rest & Hc0 & Hcs & ->).
  destruct k as [|k].
  - injection Hc as <-. injection He as <-. by eapply call_completed_by_update.
  - by eapply (IH m1 rest k).
Qed.

Lemma no_begin_count id cs :
  Forall (λ c, begins_id id c = false) cs →
  length (List.filter (begins_id id) cs) = 0%nat.
Proof.
  induction 1 as [|c cs Hc _ IH]; [done|]. cbn [List.filter]. by rewrite Hc.
Qed.

(** C5. Take a run of a new manager in which the engine gave the id to one
    download only, and an is-complete update event for that id while its
    download is accepted. That event posts [onDownloadCompleted] once, with
    the path and the name of the download, and erases the id in the same
    call; no update event for the id posted one before; and whatever calls
    follow that do not begin the id anew, the id stays absent, update events
    for it are ignored without effect and without fault, and none posts
    [onDownloadCompleted] again: over the whole run the update events for
    the id post it exactly once. Nothing but an is-complete update event
    posts it at all. *)
Theorem completion_is_posted_once_per_download (cs1 : list Call)
    (m1 : DownloadManager) (log1 : list (list Effect))
    (downloadItem : CefDownloadItem) (callback : CefDownloadItemCallback)
    (info : DownloadInfo) :
  calls cs1 DownloadManager_new = Done (m1, log1) →
  (length (List.filter (begins_id (GetId downloadItem)) cs1) ≤ 1)%nat →
  IsValid downloadItem = true →
  infos_ m1 !! GetId downloadItem = Some info →
  startCallback info = None →
  IsComplete downloadItem = true →
  ∃ m2 effects,
    OnDownloadUpdated downloadItem callback m1 = Done (m2, effects)
    ∧ List.filter is_completed effects
      = [onDownloadCompleted
           {| path_ := match tempDir_ m1 with
                       | Some dir => dir
                       | None => TempDir_create
                       end
                       +:+ "/file_" +:+ toString (fileIdx info) +:+ ".bin";
              name_ := name info |}]
    ∧ infos_ m2 !! GetId downloadItem = None
    ∧ completions (GetId downloadItem) cs1 log1 = 0%nat
    ∧ ∀ cs2 m3 log2,
        calls cs2 m2 = Done (m3, log2) →
        Forall (λ c, begins_id (GetId downloadItem) c = false) cs2 →
        infos_ m3 !! GetId downloadItem = None
        ∧ completions (GetId downloadItem) cs2 log2 = 0%nat
        ∧ completions (GetId downloadItem)
            (cs1 ++ DownloadUpdated downloadItem callback :: cs2)
            (log1 ++ effects :: log2) = 1%nat
        ∧ (∀ later : list (CefDownloadItem * CefDownloadItemCallback),
             Forall (λ u, IsValid u.1 = true ∧ GetId u.1 = GetId downloadItem) later →
             calls (updates later) m3 = Done (m3, replicate (length later) []))
        ∧ (∀ (k : nat) c posted file,
             (cs1 ++ DownloadUpdated downloadItem callback :: cs2) !! k = Some c →
             (log1 ++ effects :: log2) !! k = Some posted →
             onDownloadCompleted file ∈ posted →
             ∃ item' callback',
               c = DownloadUpdated item' callback' ∧ IsComplete item' = true).
Proof.
  intros Hrun1 Honce Hv Hl Hs Hc.
  destruct (completion_step downloadItem callback m1 info Hv Hl Hs Hc)
    as (m2 & effects & Hupd & Hposted & Hgone & _).
  exists m2, effects.
  pose proof (calls_completions (GetId downloadItem) _ _ _ _ Hrun1) as Hbefore.
  unfold held in Hbefore. rewrite Hl in Hbefore. cbn in Hbefore.
  rewrite lookup_empty in Hbefore.
  assert (Hzero : completions (GetId downloadItem) cs1 log1 = 0%nat) by lia.
  split_and!; [done|by rewrite Hposted|done|done|].
  intros cs2 m3 log2 Hrun2 Hnobegin.
  pose proof (calls_completions (GetId downloadItem) _ _ _ _ Hrun2) as Hafter.
  rewrite (no_begin_count _ _ Hnobegin) in Hafter.
  unfold held in Hafter. rewrite Hgone in Hafter.
  destruct (infos_ m3 !! GetId downloadItem) as [info3|] eqn:Hl3; [cbn in Hafter; lia|].
  assert (Hzero2 : completions (GetId downloadItem) cs2 log2 = 0%nat) by lia.
  split_and!; [done|done| | |].
  - rewrite completions_app by (by eapply calls_length).
    cbn [completions updates_id]. rewrite bool_decide_eq_true_2 by done.
    rewrite Hposted, Hzero, Hzero2. done.
  - intros later Hlater. by apply (updates_unknown (GetId downloadItem)).
  - intros k c posted file Hk Hposted' Hin.
    assert (Hwhole : calls (cs1 ++ DownloadUpdated downloadItem callback :: cs2)
                       DownloadManager_new
                     = Done (m3, log1 ++ effects :: log2)).
    { eapply calls_app; [done|]. cbn [calls call]. rewrite Hupd. cbn.
      by rewrite Hrun2. }
    by eapply (calls_completed_by_update _ _ _ _ k).
Qed.

(** C6, as the code has it. When the manager is destroyed, every accepted
    download (start callback cleared) has its file unlinked, and has the
    cancel callback it holds invoked; every effect of the destructor is the
    unlink or the cancel of such a download, so that a download awaiting
    acceptance causes none, and no start callback is invoked. After a run of
    a new manager, an accepted download holds a cancel callback exactly once
    an update event for it has been handled, namely the callback of the
    latest such event, and the destructor invokes that one; an accepted
    download for which no update event was handled holds none and is only
    unlinked. In particular a progress tick followed by the destruction
    cancels through the callback of the tick. *)
Theorem teardown_cancels_accepted_downloads (m : DownloadManager) :
  (∀ id info,
      infos_ m !! id = Some info → startCallback info = None →
      unlink (match tempDir_ m with
              | Some dir => dir
              | None => TempDir_create
              end
              +:+ "/file_" +:+ toString (fileIdx info) +:+ ".bin")
      ∈ DownloadManager_destroy m
      ∧ ∀ callback, cancelCallback info = Some callback →
                    Cancel callback ∈ DownloadManager_destroy m)
  ∧ (∀ e, e ∈ DownloadManager_destroy m →
       ∃ id info,
         infos_ m !! id = Some info ∧ startCallback info = None
         ∧ (e = unlink (match tempDir_ m with
                        | Some dir => dir
                        | None => TempDir_create
                        end
                        +:+ "/file_" +:+ toString (fileIdx info) +:+ ".bin")
            ∨ ∃ callback, cancelCallback info = Some callback ∧ e = Cancel callback))
  ∧ List.filter is_Continue (DownloadManager_destroy m) = []
  ∧ (∀ cs log,
       calls cs DownloadManager_new = Done (m, log) →
       ∀ id info,
         infos_ m !! id = Some info → startCallback info = None →
         match tracked cs DownloadManager_new ∅ !! id with
         | Some (Some callback) =>
             cancelCallback info = Some callback
             ∧ Cancel callback ∈ DownloadManager_destroy m
         | Some None => cancelCallback info = None
         | None => False
         end)
  ∧ (∀ downloadItem callback info,
       IsValid downloadItem = true →
       infos_ m !! GetId downloadItem = Some info →
       startCallback info = None →
       IsComplete downloadItem = false →
       IsInProgress downloadItem = true →
       ∃ m' effects info',
         OnDownloadUpdated downloadItem callback m = Done (m', effects)
         ∧ infos_ m' !! GetId downloadItem = Some info'
         ∧ startCallback info' = None
         ∧ cancelCallback info' = Some callback
         ∧ Cancel callback ∈ DownloadManager_destroy m'
         ∧ unlink (match tempDir_ m with
                   | Some dir => dir
                   | None => TempDir_create
                   end
                   +:+ "/file_" +:+ toString (fileIdx info) +:+ ".bin")
           ∈ DownloadManager_destroy m').
Proof.
  destruct (destroy_effects m) as (Hacc & Hall & _ & Hcont).
  split_and!.
  - exact Hacc.
  - exact Hall.
  - exact Hcont.
  - intros cs log Hrun id info Hl Hs.
    pose proof (calls_tracks cs DownloadManager_new m log ∅ Hrun tracks_new) as Ht.
    rewrite (tracks_seen m _ id info Ht Hl Hs).
    destruct (cancelCallback info) as [cb|] eqn:Hc; [|done].
    split; [done|]. by apply (Hacc id info).
  - intros item cb info Hv Hl Hs Hc Hp.
    pose proof (OnDownloadUpdated_tick item cb m info Hv Hl Hs Hc Hp) as Hupd.
    cbv zeta in Hupd. eexists _, _, _. split; [exact Hupd|].
    split; [cbn; apply lookup_insert_eq|]. split; [done|]. split; [done|].
    split; apply elem_of_destroy; eexists (GetId item), _;
      (split; [cbn; apply lookup_insert_eq|]);
      unfold entry_teardown; cbn; rewrite Hs; set_solver.
Qed.

End Ledger.

#[local] Existing Instance example_platform.

Lemma example_tick_run :
  calls example_tick DownloadManager_new = Done (example_ticked, example_tick_log).
Proof. vm_compute. reflexivity. Qed.

Lemma exactly_one_capability_outside_the_window_witness :
  exactly_one_capability example_ticked_info
  ∧ tracked example_tick DownloadManager_new ∅ !! 1%N = Some (Some 20%N).
Proof.
  destruct (exactly_one_capability_outside_the_window example_tick example_ticked
              example_tick_log 1%N example_ticked_info) as (_ & Hone & _).
  - vm_compute. reflexivity.
  - reflexivity.
  - split; [|by vm_compute]. apply Hone. by vm_compute.
Defined.

Lemma completion_is_posted_once_per_download_witness :
  ∃ m2 effects,
    OnDownloadUpdated (example_item 1 true false 100) 21%N example_ticked
    = Done (m2, effects)
    ∧ List.filter is_completed effects
      = [onDownloadCompleted
           {| path_ := "/tmp/browservice/file_1.bin"; name_ := "a.bin" |}]
    ∧ infos_ m2 !! 1%N = None
    ∧ completions 1%N example_tick example_tick_log = 0%nat.
Proof.
  destruct (completion_is_posted_once_per_download example_tick example_ticked
              example_tick_log (example_item 1 true false 100) 21%N
              example_ticked_info)
    as (m2 & effects & Hupd & Hposted & Hgone & Hzero & _).
  - vm_compute. reflexivity.
  - vm_compute. lia.
  - reflexivity.
  - reflexivity.
  - reflexivity.
  - reflexivity.
  - exists m2, effects. split_and!; [exact Hupd|exact Hposted|exact Hgone|exact Hzero].
Defined.

(** A download begun, accepted, ticked twice and completed, with spurious
    updates after that: one completion for its id over the whole run. *)
Example completions_run :
  ∃ m log,
    calls [BeforeDownload (example_item 1 false true 0) "a.bin" 10%N;
           AcceptPending;
           DownloadUpdated (example_item 1 false true 10) 20%N;
           DownloadUpdated (example_item 1 false true 90) 21%N;
           DownloadUpdated (example_item 1 true false 100) 22%N;
           DownloadUpdated (example_item 1 true false 100) 23%N;
           DownloadUpdated (example_item 1 false true 100) 24%N]
      DownloadManager_new = Done (m, log)
    ∧ completions 1%N
        [BeforeDownload (example_item 1 false true 0) "a.bin" 10%N;
         AcceptPending;
         DownloadUpdated (example_item 1 false true 10) 20%N;
         DownloadUpdated (example_item 1 false true 90) 21%N;
         DownloadUpdated (example_item 1 true false 100) 22%N;
         DownloadUpdated (example_item 1 true false 100) 23%N;
         DownloadUpdated (example_item 1 false true 100) 24%N] log = 1%nat
    ∧ length (List.filter is_completed (concat log)) = 1%nat.
Proof. eexists _, _. split; [vm_compute; reflexivity|]. by vm_compute. Qed.

(** Teardown after the tick of [example_tick]: the callback of the tick is
    cancelled, the file unlinked. *)
Example teardown_after_tick_run :
  tracked example_tick DownloadManager_new ∅ = {[ 1%N := Some 20%N ]}
  ∧ DownloadManager_destroy example_ticked
    = [Cancel 20%N; unlink "/tmp/browservice/file_1.bin"].
Proof. split; by vm_compute. Qed.

(** Teardown right after acceptance: nothing was seen of the download but
    its acceptance, and nothing is cancelled. *)
Example teardown_in_the_window_run :
  tracked example_accept DownloadManager_new ∅ = {[ 1%N := None ]}
  ∧ DownloadManager_destroy example_accepted = [unlink "/tmp/browservice/file_1.bin"].
Proof. split; by vm_compute. Qed.

End DownloadLedger.
